(** * Hyakunin-Isshu quiz: a shallow embedding of [app.py]

    The application is one Streamlit script that is re-executed from the
    top on every user interaction and keeps its state in
    [st.session_state].  The embedding follows the script: the session
    store is a record with one optional field per key, every statement
    that reads or writes the store is a step of a small state-and-exception
    monad, and the two calls into Python's [random] module draw from an
    explicit tape of random numbers. *)

From stdpp Require Import base numbers list strings sorting.
From Stdlib Require Import ZArith Lia.

Local Open Scope string_scope.
Local Open Scope Z_scope.

(** ** Poem records and the corpus file *)

(** One entry of [hyakunin_isshu.json]. *)
Record poem := Poem {
  id : Z;
  upper : string;
  lower : string;
  reading_upper : string;
  reading_lower : string;
  author : string;
  description : string
}.

#[global] Instance poem_eq_dec : EqDecision poem.
Proof. solve_decision. Defined.

(** The file system as [load_data] sees it: [None] when
    [hyakunin_isshu.json] is absent, otherwise the decoded list. *)
Definition corpus_file := option (list poem).

(** [load_data]: the decoded file, or Python's [None] after
    [FileNotFoundError] (the message shown by [st.error] is not state). *)
Definition load_data (file : corpus_file) : option (list poem) := file.

(** The two labels of the sidebar radio. *)
Definition mode_sequential : string := "ID順".
Definition mode_random : string := "ランダム".

(** ** Python's [random] module over an explicit tape *)

Module Random.

(** The random source: each draw consumes one number; an exhausted tape
    keeps answering 0. *)
Definition tape := list nat.

(** [_randbelow(n)]: a number in [0, n). *)
Definition randbelow (n : nat) (t : tape) : nat * tape :=
  match t with
  | [] => (0%nat, [])
  | r :: t' => ((r mod n)%nat, t')
  end.

(** [x[i], x[j] = x[j], x[i]] on a list. *)
Definition swap {A} (x : list A) (i j : nat) : list A :=
  match x !! i, x !! j with
  | Some a, Some b => <[i := b]> (<[j := a]> x)
  | _, _ => x
  end.

(** The loop of [random.shuffle]:
    [for i in reversed(range(1, len(x))): j = randbelow(i + 1); swap i j].
    [shuffle_from n x] runs the iterations [i = n, n-1, ..., 1]. *)
Fixpoint shuffle_from {A} (n : nat) (x : list A) (t : tape) : list A * tape :=
  match n with
  | O => (x, t)
  | S m =>
      let '(j, t') := randbelow (S n) t in
      shuffle_from m (swap x n j) t'
  end.

Definition shuffle {A} (x : list A) (t : tape) : list A * tape :=
  shuffle_from (Nat.pred (length x)) x t.

(** The selection loop of [random.sample] on a copy [pool] of the
    population, [n] the number of not yet selected items:
    [j = randbelow(n - i); result[i] = pool[j]; pool[j] = pool[n - i - 1]].
    The branch CPython takes for populations above its set-size
    threshold picks positions by rejection instead; it also returns the
    items at [k] pairwise different positions, in drawing order, so
    the results that can come out are the same.  The last branch of the
    inner match stands for an index out of range, which cannot occur
    while [n] is positive and at most the length of the pool. *)
Fixpoint sample_loop {A} (k : nat) (pool : list A) (n : nat) (t : tape)
  : list A * tape :=
  match k with
  | O => ([], t)
  | S k' =>
      let '(j, t') := randbelow n t in
      match pool !! j, pool !! Nat.pred n with
      | Some a, Some b =>
          let '(rest, t'') := sample_loop k' (<[j := b]> pool) (Nat.pred n) t' in
          (a :: rest, t'')
      | _, _ => ([], t')
      end
  end.

(** [random.sample(population, k)]: [None] stands for the [ValueError]
    raised when the sample is larger than the population. *)
Definition sample {A} (population : list A) (k : nat) (t : tape)
  : option (list A * tape) :=
  if decide (k ≤ length population)%nat
  then Some (sample_loop k population (length population) t)
  else None.

End Random.

(** ** The session store *)

(** [st.session_state]: [None] in a field means the key is absent.  Two
    keys can hold Python's [None] as a value ([all_poems] after a failed
    load, [user_last_answer] when the radio has nothing selected), hence
    the nested options. *)
Record session_state := SessionState {
  mode : option string;
  all_poems : option (option (list poem));
  question_list : option (list Z);
  current_question_index : option Z;
  score : option Z;
  is_answered : option bool;
  options : option (list string);
  correct_answer : option string;
  user_last_answer : option (option string)
}.

(** The store of a new browser session: no key at all. *)
Definition fresh : session_state :=
  SessionState None None None None None None None None None.

Definition set_mode v (s : session_state) : session_state :=
  SessionState v (all_poems s) (question_list s) (current_question_index s)
    (score s) (is_answered s) (options s) (correct_answer s) (user_last_answer s).
Definition set_all_poems v (s : session_state) : session_state :=
  SessionState (mode s) v (question_list s) (current_question_index s)
    (score s) (is_answered s) (options s) (correct_answer s) (user_last_answer s).
Definition set_question_list v (s : session_state) : session_state :=
  SessionState (mode s) (all_poems s) v (current_question_index s)
    (score s) (is_answered s) (options s) (correct_answer s) (user_last_answer s).
Definition set_current_question_index v (s : session_state) : session_state :=
  SessionState (mode s) (all_poems s) (question_list s) v
    (score s) (is_answered s) (options s) (correct_answer s) (user_last_answer s).
Definition set_score v (s : session_state) : session_state :=
  SessionState (mode s) (all_poems s) (question_list s) (current_question_index s)
    v (is_answered s) (options s) (correct_answer s) (user_last_answer s).
Definition set_is_answered v (s : session_state) : session_state :=
  SessionState (mode s) (all_poems s) (question_list s) (current_question_index s)
    (score s) v (options s) (correct_answer s) (user_last_answer s).
Definition set_options v (s : session_state) : session_state :=
  SessionState (mode s) (all_poems s) (question_list s) (current_question_index s)
    (score s) (is_answered s) v (correct_answer s) (user_last_answer s).
Definition set_correct_answer v (s : session_state) : session_state :=
  SessionState (mode s) (all_poems s) (question_list s) (current_question_index s)
    (score s) (is_answered s) (options s) v (user_last_answer s).
Definition set_user_last_answer v (s : session_state) : session_state :=
  SessionState (mode s) (all_poems s) (question_list s) (current_question_index s)
    (score s) (is_answered s) (options s) (correct_answer s) v.

(** ** Script runs: state, random tape and exceptions *)

(** The exceptions a run can end with.  [st.rerun()] stops the run by
    raising, too. *)
Inductive exn :=
| ValueError | AttributeError | TypeError | IndexError | RerunException.

(** How a computation ends.  What was written to the store before an
    exception stays written: the store outlives the run. *)
Inductive outcome (A : Type) :=
| Returned (a : A) (s : session_state) (t : Random.tape)
| Raised (e : exn) (s : session_state) (t : Random.tape).
Arguments Returned {A} a s t.
Arguments Raised {A} e s t.

Definition M (A : Type) : Type := session_state → Random.tape → outcome A.

Definition final_state {A} (o : outcome A) : session_state :=
  match o with Returned _ s _ => s | Raised _ s _ => s end.

Definition raised {A} (o : outcome A) : option exn :=
  match o with Returned _ _ _ => None | Raised e _ _ => Some e end.

#[global] Instance M_ret : MRet M := λ A a s t, Returned a s t.
#[global] Instance M_bind : MBind M := λ A B f m s t,
  match m s t with
  | Returned a s' t' => f a s' t'
  | Raised e s' t' => Raised e s' t'
  end.

Definition raise {A} (e : exn) : M A := λ s t, Raised e s t.

(** [st.session_state.key] as an expression: [AttributeError] when the
    key is absent. *)
Definition get_attr {A} (key : session_state → option A) : M A := λ s t,
  match key s with
  | Some v => Returned v s t
  | None => Raised AttributeError s t
  end.

(** ["key" in st.session_state]. *)
Definition has_attr {A} (key : session_state → option A) : M bool := λ s t,
  Returned (bool_decide (is_Some (key s))) s t.

(** [st.session_state.key = v]. *)
Definition set_attr {A} (set : option A → session_state → session_state) (v : A)
  : M unit := λ s t, Returned () (set (Some v) s) t.

(** [del st.session_state.key]: raises when the key is absent. *)
Definition del_attr {A} (key : session_state → option A)
    (set : option A → session_state → session_state) : M unit := λ s t,
  match key s with
  | Some _ => Returned () (set None s) t
  | None => Raised AttributeError s t
  end.

(** A call into [random]. *)
Definition draw {A} (f : Random.tape → A * Random.tape) : M A := λ s t,
  let '(a, t') := f t in Returned a s t'.

(** An [if] without [else]. *)
Definition when (b : bool) (m : M unit) : M unit := if b then m else mret ().

(** [l[i]] for a Python int [i]: negative indices count from the end. *)
Definition getitem {A} (l : list A) (i : Z) : M A :=
  let pos := if decide (0 ≤ i) then Some (Z.to_nat i)
             else if decide (- Z.of_nat (length l) ≤ i)
                  then Some (Z.to_nat (Z.of_nat (length l) + i))
                  else None in
  match pos ≫= (λ n, l !! n) with
  | Some a => mret a
  | None => raise IndexError
  end.

(** [current_poem["key"]]: [current_poem] is [None] when no record has
    the wanted id, and subscripting [None] is a [TypeError]. *)
Definition subscript {A} (p : option poem) (key : poem → A) : M A :=
  match p with
  | Some r => mret (key r)
  | None => raise TypeError
  end.

(** ** [initialize_quiz] (lines 21-51) *)

Definition initialize_quiz (file : corpus_file) (mode : string) : M unit :=
  set_attr set_mode mode;;
  set_attr set_all_poems (load_data file);;
  loaded ← get_attr all_poems;
  match loaded with
  | None => mret ()
  | Some poems =>
      let ids := id <$> poems in
      ids ← (if decide (mode = mode_random)
             then draw (Random.shuffle ids)
             else mret (merge_sort Z.le ids));
      set_attr set_question_list ids;;
      set_attr set_current_question_index 0;;
      set_attr set_score 0;;
      set_attr set_is_answered false;;
      has_options ← has_attr options;
      when has_options (del_attr options set_options);;
      has_answer ← has_attr user_last_answer;
      when has_answer (del_attr user_last_answer set_user_last_answer)
  end.


(** ** The blocks of the top-level script *)

(** Line 99: [next((p for p in all_poems if p["id"] == q_id), None)]. *)
Definition find_poem (all_poems : list poem) (q_id : Z) : option poem :=
  snd <$> list_find (λ p, id p = q_id) all_poems.

(** Line 106: [[p["lower"] for p in all_poems if p["id"] != q_id]]. *)
Definition other_lowers (all_poems : list poem) (q_id : Z) : list string :=
  lower <$> filter (λ p, id p ≠ q_id) all_poems.

(** Lines 103-117, the body of the guard: build the four options. *)
Definition generate_options (all_poems : list poem) (q_id : Z)
    (current_poem : option poem) : M unit :=
  correct_lower ← subscript current_poem lower;
  let all_lowers := other_lowers all_poems q_id in
  wrong_options ← (λ s t,
    match Random.sample all_lowers 3 t with
    | Some (chosen, t') => Returned chosen s t'
    | None => Raised ValueError s t
    end);
  options ← draw (Random.shuffle (wrong_options ++ [correct_lower]));
  set_attr set_options options;;
  set_attr set_correct_answer correct_lower.

(** Lines 102-117: options are generated only when the store has none. *)
Definition ensure_options (all_poems : list poem) (q_id : Z)
    (current_poem : option poem) : M unit :=
  has_options ← has_attr options;
  when (negb has_options) (generate_options all_poems q_id current_poem).

(** Lines 214-223: the body of the submit button. *)
Definition submit_answer (user_answer : option string) : M unit :=
  set_attr set_user_last_answer user_answer;;
  set_attr set_is_answered true;;
  correct ← get_attr correct_answer;
  when (bool_decide (user_answer = Some correct))
       (n ← get_attr score; set_attr set_score (n + 1));;
  raise RerunException.

(** Lines 203-208: the body of the next-question button. *)
Definition advance : M unit :=
  n ← get_attr current_question_index;
  set_attr set_current_question_index (n + 1);;
  set_attr set_is_answered false;;
  del_attr options set_options;;
  del_attr user_last_answer set_user_last_answer;;
  raise RerunException.

(** ** The widgets *)

Inductive button := next_button | submit_button | retry_button.

#[global] Instance button_eq_dec : EqDecision button.
Proof. solve_decision. Defined.

(** What the browser sends with one run of the script: the label chosen
    in the sidebar, the position chosen in the answer radio, and the
    button whose click caused the run, if any. *)
Record widgets := Widgets {
  mode_selector : string;
  answer_selector : nat;
  clicked : option button
}.

(** [st.button(..., key=b)]: true in the run caused by a click on [b]. *)
Definition st_button (w : widgets) (b : button) : bool :=
  bool_decide (clicked w = Some b).

(** [st.radio(label, options, ...)]: the selected entry; the first entry
    while nothing else is selected, [None] for an empty list. *)
Definition st_radio (w : widgets) (opts : list string) : option string :=
  match opts !! answer_selector w with
  | Some o => Some o
  | None => head opts
  end.

(** ** The script (lines 77-234) *)

(** Lines 81-234, the body of [if all_poems:]. *)
Definition quiz_page (file : corpus_file) (all_poems' : list poem) (w : widgets)
  : M unit :=
  let mode' := mode_selector w in
  stored ← (λ s t, Returned (mode s) s t);
  when (bool_decide (stored ≠ Some mode')) (initialize_quiz file mode');;
  q_index ← get_attr current_question_index;
  question_list' ← get_attr question_list;
  if decide (q_index < Z.of_nat (length question_list')) then
    q_id ← getitem question_list' q_index;
    let current_poem := find_poem all_poems' q_id in
    ensure_options all_poems' q_id current_poem;;
    _ ← subscript current_poem upper;
    options' ← get_attr options;
    disabled ← get_attr is_answered;
    let user_answer := st_radio w options' in
    answered ← get_attr is_answered;
    if (answered : bool) then
      _ ← get_attr user_last_answer;
      _ ← get_attr correct_answer;
      when (st_button w next_button) advance
    else
      when (st_button w submit_button) (submit_answer user_answer)
  else
    _ ← get_attr score;
    _ ← get_attr question_list;
    when (st_button w retry_button)
         (mode'' ← get_attr mode;
          initialize_quiz file mode'';;
          raise RerunException).

(** Lines 78-80: the page is built only for a loaded, non-empty corpus
    ([if all_poems:] is false for [None] and for the empty list). *)
Definition script (file : corpus_file) (w : widgets) : M unit :=
  match load_data file with
  | Some ((_ :: _) as all_poems') => quiz_page file all_poems' w
  | _ => mret ()
  end.

(** One run of the script from a store and a tape. *)
Definition run (file : corpus_file) (w : widgets) (s : session_state)
    (t : Random.tape) : outcome unit :=
  script file w s t.

(** The run that [st.rerun()] starts: same widgets, no button clicked. *)
Definition settled (w : widgets) : widgets :=
  Widgets (mode_selector w) (answer_selector w) None.

(** One user interaction: the run it causes and, when that run asks for
    it, the rerun. *)
Definition interact (file : corpus_file) (w : widgets) (s : session_state)
    (t : Random.tape) : outcome unit :=
  match run file w s t with
  | Raised RerunException s' t' => run file (settled w) s' t'
  | o => o
  end.

(** The stores a session can be in: the empty store, and the store after
    any run of the script from such a store. *)
Inductive reachable (file : corpus_file) : session_state → Prop :=
| reachable_fresh : reachable file fresh
| reachable_run s w t :
    reachable file s → reachable file (final_state (run file w s t)).

(** ** Auxiliary definitions and sample data *)

(** The order [initialize_quiz] builds from the ids and the tape left. *)
Definition order_for (mode : string) (ids : list Z) (t : Random.tape)
  : list Z * Random.tape :=
  if decide (mode = mode_random) then Random.shuffle ids t
  else (merge_sort Z.le ids, t).

(** A record with only the fields the quiz logic reads filled in. *)
Definition poem_of (i : Z) (l : string) : poem := Poem i "" l "" "" "" "".

Definition five_poems : list poem :=
  [poem_of 3 "c"; poem_of 1 "a"; poem_of 2 "b"; poem_of 5 "e"; poem_of 4 "d"].

(** What the submit handler leaves in the store. *)
Definition submitted (choice : option string) (correct : string) (n : Z)
    (s : session_state) : session_state :=
  set_score (Some (if bool_decide (choice = Some correct) then n + 1 else n))
    (set_is_answered (Some true) (set_user_last_answer (Some choice) s)).

(** What the next-question handler leaves in the store. *)
Definition advanced (i : Z) (s : session_state) : session_state :=
  set_user_last_answer None
    (set_options None
       (set_is_answered (Some false)
          (set_current_question_index (Some (i + 1)) s))).

(** The widgets of a visitor who keeps the sidebar on the sequential
    mode, with the answer radio at [choice] and [b] clicked. *)
Definition visitor (choice : nat) (b : option button) : widgets :=
  Widgets mode_sequential choice b.

(** The store after the first run on [five_poems]: the poem with id 1 is
    asked, the options are [d; e; a; c] and [a] is the correct one. *)
Definition first_view : session_state :=
  final_state (run (Some five_poems) (visitor 0 None) fresh []).

(** The store after the visitor then picked [a] and clicked submit. *)
Definition answered_view : session_state :=
  final_state (run (Some five_poems) (visitor 2 (Some submit_button)) first_view []).

(** Three poems only: too few for three decoys. *)
Definition three_poems : list poem :=
  [poem_of 3 "c"; poem_of 1 "a"; poem_of 2 "b"].

(** Five poems with distinct ids, two of which share their lower half. *)
Definition twin_poems : list poem :=
  [poem_of 3 "c"; poem_of 1 "a"; poem_of 2 "b"; poem_of 5 "a"; poem_of 4 "d"].

(** The store right after [initialize_quiz] on [five_poems]. *)
Definition initial_view : session_state :=
  final_state (initialize_quiz (Some five_poems) mode_sequential fresh []).

(** ** Assertions on script runs *)

(** [triple P m Q I]: started in a store satisfying [P], the computation
    [m] either returns [a] in a store satisfying [Q a], or raises in a
    store satisfying [I]. *)
Definition triple {A} (P : session_state → Prop) (m : M A)
    (Q : A → session_state → Prop) (I : session_state → Prop) : Prop :=
  ∀ s t, P s →
    match m s t with
    | Returned a s' _ => Q a s'
    | Raised _ s' _ => I s'
    end.

(** The bound the code keeps on the score: never negative, at most the
    number of questions answered so far, which is [index] while the
    current question is open and [index + 1] once it is answered.  The
    three keys come and go together. *)
Definition score_bounded (s : session_state) : Prop :=
  match score s, current_question_index s, is_answered s with
  | Some n, Some i, Some a => 0 ≤ n ∧ n ≤ i + (if a then 1 else 0)
  | None, None, None => True
  | _, _, _ => False
  end.

(** ** The stores of a running quiz *)

(** Options in the store belong to the question at the index: three
    lower halves drawn from the poems with another id, and the lower half
    of the poem asked, which is also what [correct_answer] holds. *)
Definition options_coherent (poems : list poem) (order : list Z) (i : Z)
    (o : option (list string)) (c : option string) : Prop :=
  match o with
  | None => True
  | Some opts =>
      i < Z.of_nat (length order) ∧
      ∃ q_id cur wrong rest,
        order !! Z.to_nat i = Some q_id ∧ find_poem poems q_id = Some cur ∧
        c = Some (lower cur) ∧ length wrong = 3%nat ∧
        wrong ++ rest ≡ₚ other_lowers poems q_id ∧
        opts ≡ₚ wrong ++ [lower cur]
  end.

(** The last answer is in the store exactly while the question is
    answered, and it is one of the options. *)
Definition answer_coherent (a : bool) (o : option (list string))
    (u : option (option string)) : Prop :=
  if a then ∃ opts x, o = Some opts ∧ u = Some (Some x) ∧ x ∈ opts
  else u = None.

(** A store that [initialize_quiz] has filled for the corpus [poems] and
    that the handlers have moved on from there: the order is a
    rearrangement of the ids (the ascending one unless the mode is the
    random one), index and score are in range, and options and last
    answer fit the question and the phase. *)
Definition coherent (poems : list poem) (s : session_state) : Prop :=
  ∃ m order i n (a : bool),
    mode s = Some m ∧ all_poems s = Some (Some poems) ∧
    question_list s = Some order ∧ order ≡ₚ id <$> poems ∧
    (m ≠ mode_random → order = merge_sort Z.le (id <$> poems)) ∧
    current_question_index s = Some i ∧ 0 ≤ i ≤ Z.of_nat (length order) ∧
    score s = Some n ∧ 0 ≤ n ≤ i + (if a then 1 else 0) ∧
    is_answered s = Some a ∧
    options_coherent poems order i (options s) (correct_answer s) ∧
    answer_coherent a (options s) (user_last_answer s).

(** How a run may end without being a crash: normally, or by
    [st.rerun()]. *)
Definition ends_well {A} (o : outcome A) : Prop :=
  raised o = None ∨ raised o = Some RerunException.

(** A computation that never asks for a rerun. *)
Definition no_rerun {A} (m : M A) : Prop :=
  ∀ s t, raised (m s t) ≠ Some RerunException.

(** ** Playing question rounds *)

Definition final_tape {A} (o : outcome A) : Random.tape :=
  match o with Returned _ _ t => t | Raised _ _ t => t end.

(** One round of a visitor who keeps the sidebar on [m]: with the radio
    at [choice], click submit, then click next; each click is one
    interaction, and the random tape is handed on. *)
Definition answer_and_advance (file : corpus_file) (m : string) (choice : nat)
    (st : session_state * Random.tape) : session_state * Random.tape :=
  let o1 := interact file (Widgets m choice (Some submit_button)) st.1 st.2 in
  let o2 := interact file (Widgets m choice (Some next_button))
              (final_state o1) (final_tape o1) in
  (final_state o2, final_tape o2).

(** One round for each choice of the list. *)
Fixpoint play (file : corpus_file) (m : string) (choices : list nat)
    (st : session_state * Random.tape) : session_state * Random.tape :=
  match choices with
  | [] => st
  | choice :: rest => play file m rest (answer_and_advance file m choice st)
  end.

(** The store after five rounds on [five_poems]: the quiz is over. *)
Definition finished_view : session_state :=
  (play (Some five_poems) mode_sequential [2; 0; 1; 3; 2]%nat (first_view, [])).1.

(** Line 135, the test that decides between the success and the error
    message of an answered question:
    [st.session_state.user_last_answer == st.session_state.correct_answer]. *)
Definition verdict : M bool :=
  last ← get_attr user_last_answer;
  correct ← get_attr correct_answer;
  mret (bool_decide (last = Some correct)).

(** ** The description of an answered poem (lines 161-163) *)

(** Whether [s] begins with [old]. *)
Fixpoint starts_with (old s : string) : bool :=
  match old, s with
  | EmptyString, _ => true
  | String a old', String b s' => if decide (a = b) then starts_with old' s' else false
  | String _ _, EmptyString => false
  end.

(** [s.replace(old, new)] for a non-empty [old]: scanning from the left,
    every occurrence of [old] that does not overlap an earlier one is
    replaced; [skip] counts the characters of the occurrence just
    replaced that are still to be passed over. *)
Fixpoint replace_from (skip : nat) (old new s : string) : string :=
  match s with
  | EmptyString => EmptyString
  | String ch rest =>
      match skip with
      | S k => replace_from k old new rest
      | O =>
          if starts_with old s
          then String.append new
                 (replace_from (Nat.pred (String.length old)) old new rest)
          else String ch (replace_from 0 old new rest)
      end
  end.

(** For an empty [old] Python puts [new] before every character and at
    the end. *)
Fixpoint insert_around (new s : string) : string :=
  match s with
  | EmptyString => new
  | String ch rest => String.append new (String ch (insert_around new rest))
  end.

Definition str_replace (old new s : string) : string :=
  match old with
  | EmptyString => insert_around new s
  | String _ _ => replace_from 0 old new s
  end.

(** The line feed. *)
Definition LF : Ascii.ascii := Ascii.ascii_of_nat 10.

(** The three section markers of a description. *)
Definition marker_source : string := "【出典】".
Definition marker_background : string := "【背景・情景】".
Definition marker_points : string := "【文学的ポイント】".

(** [desc_text.replace(marker, "\n\n" + marker)]. *)
Definition break_before (marker desc_text : string) : string :=
  str_replace marker (String LF (String LF marker)) desc_text.

(** Lines 161-163: a blank line before each of the three markers. *)
Definition break_sections (desc_text : string) : string :=
  break_before marker_points
    (break_before marker_background (break_before marker_source desc_text)).

(** The text without its line feeds. *)
Fixpoint without_line_feeds (s : string) : string :=
  match s with
  | EmptyString => EmptyString
  | String ch rest =>
      if decide (ch = LF) then without_line_feeds rest
      else String ch (without_line_feeds rest)
  end.

(** [old] occurs somewhere in [s]. *)
Definition occurs (old s : string) : Prop :=
  ∃ before after, s = String.append before (String.append old after).

(** The text after its first [k] characters. *)
Fixpoint string_drop (k : nat) (s : string) : string :=
  match k, s with
  | O, _ => s
  | S k', String _ rest => string_drop k' rest
  | S _, EmptyString => EmptyString
  end.

(** The same as a test. *)
Fixpoint contains (old s : string) : bool :=
  starts_with old s ||
  match s with
  | EmptyString => false
  | String _ rest => contains old rest
  end.

(** * Properties *)

(** ** What [shuffle] and [sample] can return *)

Example shuffle_four :
  Random.shuffle ["a"; "b"; "c"; "d"] [2; 0; 1]%nat = (["d"; "b"; "a"; "c"], []).
Proof. reflexivity. Qed.

Example sample_three_of_five :
  Random.sample ["a"; "b"; "c"; "d"; "e"] 3 [1; 1; 7]%nat
    = Some (["b"; "e"; "d"], []).
Proof. reflexivity. Qed.

Example sample_three_of_two :
  Random.sample ["a"; "b"] 3 [1; 1; 7]%nat = None.
Proof. reflexivity. Qed.

Section random_facts.
Context {A : Type}.
Implicit Types (x l pool population : list A) (t : Random.tape).

Lemma randbelow_lt n t : (0 < n)%nat → ((Random.randbelow n t).1 < n)%nat.
Proof.
  intros Hn. destruct t as [|r t]; simpl; [lia|].
  apply Nat.mod_upper_bound. lia.
Qed.

(** Overwriting position [j] trades the old entry for the new one. *)
Lemma insert_trade l j a b :
  l !! j = Some a → a :: <[j := b]> l ≡ₚ b :: l.
Proof.
  revert j. induction l as [|c l IH]; intros [|j] Hj; simplify_eq/=.
  - apply perm_swap.
  - rewrite (perm_swap c a). rewrite (IH _ Hj). apply perm_swap.
Qed.

Lemma swap_Permutation x i j : Random.swap x i j ≡ₚ x.
Proof.
  unfold Random.swap.
  destruct (x !! i) as [a|] eqn:Hi; [|done].
  destruct (x !! j) as [b|] eqn:Hj; [|done].
  apply (Permutation_cons_inv (a := a)).
  assert (<[j := a]> x !! i = Some a) as Hi'.
  { destruct (decide (i = j)) as [->|Hne].
    - apply list_lookup_insert_eq. by eapply lookup_lt_Some.
    - by rewrite list_lookup_insert_ne. }
  rewrite (insert_trade _ _ _ b Hi').
  by rewrite (insert_trade _ _ _ a Hj).
Qed.

Lemma shuffle_from_Permutation n x t : (Random.shuffle_from n x t).1 ≡ₚ x.
Proof.
  revert x t. induction n as [|n IH]; intros x t; simpl; [done|].
  destruct (Random.randbelow _ t) as [j t'].
  rewrite IH. apply swap_Permutation.
Qed.

(** [random.shuffle] rearranges, it neither drops nor invents items. *)
Lemma shuffle_Permutation x t : (Random.shuffle x t).1 ≡ₚ x.
Proof. apply shuffle_from_Permutation. Qed.

(** The loop of [random.sample] returns [k] of the first [n] pool
    entries, each position at most once. *)
Lemma sample_loop_spec k pool n t :
  (k ≤ n ≤ length pool)%nat →
  length (Random.sample_loop k pool n t).1 = k ∧
  ∃ rest, (Random.sample_loop k pool n t).1 ++ rest ≡ₚ take n pool.
Proof.
  revert pool n t. induction k as [|k IH]; intros pool n t [Hk Hn]; simpl.
  { split; [done|]. by exists (take n pool). }
  destruct n as [|n]; [lia|].
  pose proof (randbelow_lt (S n) t ltac:(lia)) as Hj.
  destruct (Random.randbelow (S n) t) as [j t']. simpl in Hj |- *.
  destruct (lookup_lt_is_Some_2 pool j ltac:(lia)) as [a Ha].
  destruct (lookup_lt_is_Some_2 pool n ltac:(lia)) as [b Hb].
  rewrite Ha, Hb.
  destruct (IH (<[j := b]> pool) n t') as [Hlen [rest Hrest]].
  { rewrite length_insert. lia. }
  destruct (Random.sample_loop k _ n t') as [r t'']. simpl in *.
  split; [by rewrite Hlen|].
  exists rest. rewrite Hrest, (take_S_r _ _ _ Hb).
  destruct (decide (j = n)) as [->|Hne].
  - rewrite take_insert_ge by lia. simplify_eq.
    apply Permutation_cons_append.
  - rewrite take_insert_lt by lia.
    rewrite insert_trade; [apply Permutation_cons_append|].
    rewrite lookup_take_lt by lia. done.
Qed.

(** [random.sample] succeeds exactly when the population is large
    enough, and then returns [k] items of it. *)
Lemma sample_Some population k t :
  (k ≤ length population)%nat →
  ∃ chosen t' rest,
    Random.sample population k t = Some (chosen, t') ∧
    length chosen = k ∧ chosen ++ rest ≡ₚ population.
Proof.
  intros Hk. unfold Random.sample. rewrite decide_True by done.
  destruct (sample_loop_spec k population (length population) t) as [Hlen [rest Hrest]];
    [lia|].
  destruct (Random.sample_loop _ _ _ t) as [chosen t']. simpl in *.
  exists chosen, t', rest. rewrite take_ge in Hrest by lia. done.
Qed.

Lemma sample_None population k t :
  (length population < k)%nat → Random.sample population k t = None.
Proof. intros Hk. unfold Random.sample. rewrite decide_False by lia. done. Qed.

(** Any position of the population can be the first one drawn. *)
Lemma sample_first population k j a :
  population !! j = Some a → (S k ≤ length population)%nat →
  ∃ chosen t', Random.sample population (S k) [j] = Some (a :: chosen, t').
Proof.
  intros Hj Hk. unfold Random.sample. rewrite decide_True by done.
  pose proof (lookup_lt_Some _ _ _ Hj) as Hlt.
  simpl. rewrite Nat.mod_small by done. rewrite Hj.
  destruct (lookup_lt_is_Some_2 population (Nat.pred (length population)) ltac:(lia))
    as [b Hb].
  rewrite Hb.
  destruct (Random.sample_loop k _ _ _) as [r t'']. by exists r, t''.
Qed.

End random_facts.

(** ** [initialize_quiz] *)

(** With the file present the function runs to its end: everything is
    reset except [correct_answer], which it never touches. *)
Lemma initialize_quiz_loaded poems m s t :
  initialize_quiz (Some poems) m s t =
    Returned ()
      (SessionState (Some m) (Some (Some poems))
         (Some (order_for m (id <$> poems) t).1) (Some 0) (Some 0) (Some false)
         None (correct_answer s) None)
      (order_for m (id <$> poems) t).2.
Proof.
  destruct s as [? ? ? ? ? ? [o|] ? [u|]];
    unfold initialize_quiz, order_for, mbind, M_bind, load_data; simpl;
    (destruct (decide (m = mode_random)); simpl;
     [unfold draw; destruct (Random.shuffle _ t) as [order t']|]; reflexivity).
Qed.

(** With the file missing it stops after its first two assignments. *)
Lemma initialize_quiz_missing m s t :
  initialize_quiz None m s t =
    Returned () (set_all_poems (Some None) (set_mode (Some m) s)) t.
Proof. reflexivity. Qed.

Lemma order_for_Permutation m ids t : (order_for m ids t).1 ≡ₚ ids.
Proof.
  unfold order_for. destruct (decide _); simpl.
  - apply shuffle_Permutation.
  - apply merge_sort_Permutation.
Qed.

Lemma StronglySorted_le_lt (l : list Z) :
  StronglySorted Z.le l → NoDup l → StronglySorted Z.lt l.
Proof.
  induction 1 as [|x l Hl IH Hx]; intros Hnd; [constructor|].
  apply NoDup_cons in Hnd as [Hnotin Hnd].
  constructor; [by apply IH|].
  apply Forall_forall. intros y Hy.
  rewrite Forall_forall in Hx. specialize (Hx y Hy).
  assert (x ≠ y) by (intros ->; done). lia.
Qed.

(** C8: for a non-empty corpus (whose ids are unique, the corpus invariant
    of the data model), [initialize_quiz] stores an order that is a
    rearrangement of the corpus ids with no id repeated or left out, and
    when the mode is not the random one the order is strictly ascending. *)
Theorem initialize_quiz_order poems m s t :
  poems ≠ [] → NoDup (id <$> poems) →
  ∃ s' t' order,
    initialize_quiz (Some poems) m s t = Returned () s' t' ∧
    question_list s' = Some order ∧
    order ≡ₚ id <$> poems ∧
    NoDup order ∧
    (∀ i, i ∈ order ↔ ∃ p, p ∈ poems ∧ id p = i) ∧
    length order = length poems ∧
    (m ≠ mode_random → StronglySorted Z.lt order).
Proof.
  intros _ Hnd. rewrite initialize_quiz_loaded.
  eexists _, _, _. split; [reflexivity|]. split; [reflexivity|]. simpl.
  pose proof (order_for_Permutation m (id <$> poems) t) as Hperm.
  assert (NoDup (order_for m (id <$> poems) t).1) as Hnd'.
  { apply (NoDup_Permutation_proper _ _ Hperm), Hnd. }
  split; [done|]. split; [done|].
  split; [|split].
  - intros i. rewrite Hperm, list_elem_of_fmap.
    split; [intros (p & -> & Hp) | intros (p & Hp & <-)]; eauto.
  - by rewrite Hperm, length_fmap.
  - intros Hm. apply StronglySorted_le_lt; [|done].
    unfold order_for. rewrite decide_False by done. simpl.
    apply StronglySorted_merge_sort; apply _.
Qed.

Lemma initialize_quiz_order_witness :
  ∃ s' t' order,
    initialize_quiz (Some five_poems) mode_sequential fresh [] = Returned () s' t' ∧
    question_list s' = Some order ∧
    order ≡ₚ id <$> five_poems ∧
    NoDup order ∧
    (∀ i, i ∈ order ↔ ∃ p, p ∈ five_poems ∧ id p = i) ∧
    length order = length five_poems ∧
    (mode_sequential ≠ mode_random → StronglySorted Z.lt order).
Proof.
  apply (initialize_quiz_order five_poems mode_sequential fresh []).
  - discriminate.
  - apply (bool_decide_unpack _). vm_compute. exact I.
Defined.

(** ** The blocks on their own *)

Lemma getitem_in_range {A} (l : list A) (i : Z) (a : A) s t :
  0 ≤ i → l !! Z.to_nat i = Some a → getitem l i s t = Returned a s t.
Proof.
  intros Hi Ha. unfold getitem. rewrite decide_True by done. simpl.
  by rewrite Ha.
Qed.

(** Once the store holds options, the guard skips the generation. *)
Lemma ensure_options_present poems q_id cur s t :
  is_Some (options s) → ensure_options poems q_id cur s t = Returned () s t.
Proof.
  intros [opts Hopts]. unfold ensure_options, mbind, M_bind, has_attr.
  rewrite Hopts. reflexivity.
Qed.

(** A call that returns leaves options in the store. *)
Lemma ensure_options_generated poems q_id cur s t s' t' :
  ensure_options poems q_id cur s t = Returned () s' t' → is_Some (options s').
Proof.
  destruct (options s) as [opts|] eqn:Hopts.
  { rewrite ensure_options_present by (rewrite Hopts; eauto).
    intros [= <- <-]. rewrite Hopts. eauto. }
  unfold ensure_options, generate_options, mbind, M_bind, has_attr, subscript.
  rewrite Hopts. simpl.
  destruct cur as [cur|]; simpl; [|done].
  destruct (Random.sample _ 3 t) as [[chosen t1]|]; [|done].
  unfold draw. destruct (Random.shuffle _ t1) as [opts t2]. simpl.
  intros [= <- <-]. simpl. eauto.
Qed.

Lemma submit_answer_run choice correct n s t :
  correct_answer s = Some correct → score s = Some n →
  submit_answer choice s t = Raised RerunException (submitted choice correct n s) t.
Proof.
  intros Hc Hn. destruct s; simpl in *; subst.
  unfold submit_answer, submitted, mbind, M_bind; simpl.
  case_bool_decide; reflexivity.
Qed.

Lemma advance_run i s t :
  current_question_index s = Some i →
  is_Some (options s) → is_Some (user_last_answer s) →
  advance s t = Raised RerunException (advanced i s) t.
Proof.
  intros Hi [opts Ho] [u Hu]. destruct s; simpl in *; subst. reflexivity.
Qed.

(** ** The script at a question whose options are in the store *)

Lemma script_at_question poems w s t i order q_id cur a :
  poems ≠ [] →
  mode s = Some (mode_selector w) →
  current_question_index s = Some i →
  question_list s = Some order →
  0 ≤ i < Z.of_nat (length order) →
  order !! Z.to_nat i = Some q_id →
  find_poem poems q_id = Some cur →
  is_Some (options s) →
  is_answered s = Some a →
  script (Some poems) w s t =
    if a
    then (_ ← get_attr user_last_answer; _ ← get_attr correct_answer;
          when (st_button w next_button) advance) s t
    else (opts ← get_attr options;
          when (st_button w submit_button) (submit_answer (st_radio w opts))) s t.
Proof.
  intros Hne Hm Hi Hq Hrange Hid Hcur [opts Ho] Ha.
  assert (script (Some poems) w = quiz_page (Some poems) poems w) as ->.
  { destruct poems; [done | reflexivity]. }
  unfold quiz_page.
  destruct s; simpl in *; simplify_eq.
  unfold mbind, M_bind; simpl.
  rewrite bool_decide_false by (intros ?; done).
  unfold mret, M_ret, get_attr, when; simpl.
  rewrite decide_True by lia.
  rewrite (getitem_in_range _ _ q_id) by (done || lia).
  rewrite ensure_options_present by (simpl; eauto).
  rewrite Hcur. simpl.
  destruct a; reflexivity.
Qed.

(** ** The three handlers inside the script *)

(** C9: once the store holds options, a further call of the generation
    block changes nothing: neither the options nor the correct answer nor
    any other key, and it draws no random number. *)
Theorem ensure_options_idempotent poems q_id cur s t :
  is_Some (options s) →
  ensure_options poems q_id cur s t = Returned () s t ∧
  options (final_state (ensure_options poems q_id cur s t)) = options s ∧
  correct_answer (final_state (ensure_options poems q_id cur s t)) = correct_answer s.
Proof.
  intros Hopts. rewrite ensure_options_present by done. done.
Qed.

Lemma ensure_options_idempotent_witness :
  is_Some (options first_view) ∧
  ensure_options five_poems 1 (find_poem five_poems 1) first_view [3; 1; 4]%nat
    = Returned () first_view [3; 1; 4]%nat ∧
  options (final_state (ensure_options five_poems 1 (find_poem five_poems 1)
                          first_view [3; 1; 4]%nat)) = options first_view ∧
  correct_answer (final_state (ensure_options five_poems 1 (find_poem five_poems 1)
                                 first_view [3; 1; 4]%nat))
    = correct_answer first_view.
Proof.
  assert (is_Some (options first_view)) as H by (vm_compute; eauto).
  split; [exact H|].
  apply (ensure_options_idempotent five_poems 1 (find_poem five_poems 1)
           first_view [3; 1; 4]%nat H).
Defined.

(** C6: in the unanswered phase of a question ([index < len(order)],
    options shown), a click on submit stores the selected option as the
    last answer, marks the question answered, and adds exactly 1 to the
    score when the selection equals the correct answer and nothing
    otherwise; no other key changes. *)
Theorem submit_in_unanswered_phase poems w s t i order q_id cur opts correct n :
  poems ≠ [] →
  mode s = Some (mode_selector w) →
  current_question_index s = Some i →
  question_list s = Some order →
  0 ≤ i < Z.of_nat (length order) →
  order !! Z.to_nat i = Some q_id →
  find_poem poems q_id = Some cur →
  options s = Some opts →
  correct_answer s = Some correct →
  score s = Some n →
  is_answered s = Some false →
  clicked w = Some submit_button →
  ∃ s', run (Some poems) w s t = Raised RerunException s' t ∧
    s' = submitted (st_radio w opts) correct n s ∧
    user_last_answer s' = Some (st_radio w opts) ∧
    is_answered s' = Some true ∧
    (st_radio w opts = Some correct → score s' = Some (n + 1)) ∧
    (st_radio w opts ≠ Some correct → score s' = Some n) ∧
    current_question_index s' = Some i ∧
    options s' = Some opts ∧
    correct_answer s' = Some correct.
Proof.
  intros Hne Hm Hi Hq Hrange Hid Hcur Ho Hc Hn Ha Hclick.
  eexists. split; [|split; [reflexivity|]].
  - unfold run.
    rewrite (script_at_question poems w s t i order q_id cur false)
      by (done || rewrite Ho; eauto).
    unfold mbind, M_bind, get_attr. rewrite Ho.
    unfold st_button. rewrite bool_decide_true by done. simpl.
    by apply submit_answer_run.
  - unfold submitted. simpl.
    repeat split; try done.
    + intros Heq. by rewrite bool_decide_true.
    + intros Hneq. by rewrite bool_decide_false.
Qed.

Lemma submit_in_unanswered_phase_witness :
  ∃ s', run (Some five_poems) (visitor 2 (Some submit_button)) first_view [] =
          Raised RerunException s' [] ∧
    s' = submitted (Some "a") "a" 0 first_view ∧
    user_last_answer s' = Some (Some "a") ∧
    is_answered s' = Some true ∧
    (Some "a" = Some "a" → score s' = Some (0 + 1)) ∧
    (Some "a" ≠ Some "a" → score s' = Some 0) ∧
    current_question_index s' = Some 0 ∧
    options s' = Some ["d"; "e"; "a"; "c"] ∧
    correct_answer s' = Some "a".
Proof.
  apply (submit_in_unanswered_phase five_poems (visitor 2 (Some submit_button))
           first_view [] 0 [1; 2; 3; 4; 5] 1 (poem_of 1 "a")
           ["d"; "e"; "a"; "c"] "a" 0);
    first [discriminate | reflexivity | (simpl; lia)].
Defined.

(** C4, as the code has it: in the answered phase a click on the
    next-question button adds 1 to the index, marks the question
    unanswered and deletes the options and the last answer.  The key
    [correct_answer] is not deleted: it keeps its value until options are
    generated again. *)
Theorem next_in_answered_phase poems w s t i order q_id cur opts correct last :
  poems ≠ [] →
  mode s = Some (mode_selector w) →
  current_question_index s = Some i →
  question_list s = Some order →
  0 ≤ i < Z.of_nat (length order) →
  order !! Z.to_nat i = Some q_id →
  find_poem poems q_id = Some cur →
  options s = Some opts →
  correct_answer s = Some correct →
  user_last_answer s = Some last →
  is_answered s = Some true →
  clicked w = Some next_button →
  ∃ s', run (Some poems) w s t = Raised RerunException s' t ∧
    s' = advanced i s ∧
    current_question_index s' = Some (i + 1) ∧
    is_answered s' = Some false ∧
    options s' = None ∧
    user_last_answer s' = None ∧
    correct_answer s' = Some correct ∧
    score s' = score s ∧
    question_list s' = Some order.
Proof.
  intros Hne Hm Hi Hq Hrange Hid Hcur Ho Hc Hu Ha Hclick.
  eexists. split; [|split; [reflexivity|]].
  - unfold run.
    rewrite (script_at_question poems w s t i order q_id cur true)
      by (done || rewrite Ho; eauto).
    unfold mbind, M_bind, get_attr. rewrite Hu, Hc.
    unfold st_button. rewrite bool_decide_true by done. simpl.
    apply advance_run; [done|rewrite Ho; eauto|rewrite Hu; eauto].
  - unfold advanced. simpl. done.
Qed.

Lemma next_in_answered_phase_witness :
  ∃ s', run (Some five_poems) (visitor 2 (Some next_button)) answered_view [] =
          Raised RerunException s' [] ∧
    s' = advanced 0 answered_view ∧
    current_question_index s' = Some (0 + 1) ∧
    is_answered s' = Some false ∧
    options s' = None ∧
    user_last_answer s' = None ∧
    correct_answer s' = Some "a" ∧
    score s' = score answered_view ∧
    question_list s' = Some [1; 2; 3; 4; 5].
Proof.
  apply (next_in_answered_phase five_poems (visitor 2 (Some next_button))
           answered_view [] 0 [1; 2; 3; 4; 5] 1 (poem_of 1 "a")
           ["d"; "e"; "a"; "c"] "a" (Some "a"));
    first [discriminate | reflexivity | (simpl; lia)].
Defined.

(** The rerun that follows the click generates the options of the next
    question and overwrites the correct answer with them. *)
Example next_then_rerun :
  let s' := final_state (interact (Some five_poems) (visitor 2 (Some next_button))
                           answered_view []) in
  current_question_index s' = Some 1 ∧ score s' = Some 1 ∧
  is_answered s' = Some false ∧
  options s' = Some ["d"; "e"; "b"; "c"] ∧ correct_answer s' = Some "b".
Proof. repeat split; reflexivity. Qed.

(** C4 as stated fails: after the handler ran in the answered phase the
    correct answer of the question just left is still in the store. *)
Lemma next_keeps_correct_answer :
  is_answered answered_view = Some true ∧
  advance answered_view [] = Raised RerunException (advanced 0 answered_view) [] ∧
  correct_answer (advanced 0 answered_view) = Some "a" ∧
  ¬ (options (advanced 0 answered_view) = None ∧
     correct_answer (advanced 0 answered_view) = None ∧
     user_last_answer (advanced 0 answered_view) = None).
Proof.
  repeat split; try reflexivity.
  intros (_ & Hc & _). vm_compute in Hc. discriminate.
Qed.

(** ** Failures and the store *)

(** C3, as the code has it: when the corpus file is missing, a run of the
    script ends normally and leaves the store exactly as it was; a call of
    [initialize_quiz] ends normally too, after writing the two keys [mode]
    and [all_poems] (the latter with Python's [None]) and nothing else. *)
Theorem missing_corpus_effects w m s t :
  run None w s t = Returned () s t ∧
  initialize_quiz None m s t =
    Returned () (set_all_poems (Some None) (set_mode (Some m) s)) t ∧
  let s' := final_state (initialize_quiz None m s t) in
  mode s' = Some m ∧ all_poems s' = Some None ∧
  question_list s' = question_list s ∧
  current_question_index s' = current_question_index s ∧
  score s' = score s ∧ is_answered s' = is_answered s ∧
  options s' = options s ∧ correct_answer s' = correct_answer s ∧
  user_last_answer s' = user_last_answer s.
Proof. repeat split; reflexivity. Qed.

(** C3 as stated fails: [initialize_quiz] on a missing corpus changes a
    store that held a running quiz. *)
Lemma initialize_quiz_missing_not_atomic :
  final_state (initialize_quiz None mode_random answered_view []) ≠ answered_view ∧
  mode answered_view = Some mode_sequential ∧
  mode (final_state (initialize_quiz None mode_random answered_view []))
    = Some mode_random ∧
  all_poems (final_state (initialize_quiz None mode_random answered_view []))
    = Some None.
Proof.
  split; [|repeat split; reflexivity].
  intros Heq. apply (f_equal mode) in Heq. vm_compute in Heq. discriminate.
Qed.

(** ** Rules for [triple] *)

Section triple_rules.
Context {A B : Type}.
Implicit Types (P I : session_state → Prop).

Lemma triple_bind P I (m : M A) (f : A → M B) Q R :
  triple P m Q I → (∀ a, triple (Q a) (f a) R I) → triple P (m ≫= f) R I.
Proof.
  intros Hm Hf s t HP. unfold mbind, M_bind.
  specialize (Hm s t HP). destruct (m s t) as [a s' t'|e s' t']; [|done].
  by apply Hf.
Qed.

Lemma triple_weaken P P' I (m : M A) (Q Q' : A → session_state → Prop) :
  (∀ s, P' s → P s) → (∀ a s, Q a s → Q' a s) →
  triple P m Q I → triple P' m Q' I.
Proof.
  intros HP HQ Hm s t HP'. specialize (Hm s t (HP s HP')).
  destruct (m s t); [by apply HQ|done].
Qed.

Lemma triple_ret P I (a : A) : triple P (mret a) (λ _, P) I.
Proof. by intros s t HP. Qed.

Lemma triple_raise P I e : (∀ s, P s → I s) → triple P (raise e : M A) (λ _, P) I.
Proof. intros HPI s t HP. by apply HPI. Qed.

(** Reading a key keeps the store and tells what the key holds. *)
Lemma triple_get_attr P I (key : session_state → option A) :
  (∀ s, P s → I s) →
  triple P (get_attr key) (λ v s, P s ∧ key s = Some v) I.
Proof.
  intros HPI s t HP. unfold get_attr.
  destruct (key s) eqn:Hkey; [done|by apply HPI].
Qed.

Lemma triple_read_attr P I (key : session_state → option A) :
  (∀ s, P s → I s) → triple P (get_attr key) (λ _, P) I.
Proof.
  intros HPI. eapply triple_weaken; [| |by apply triple_get_attr].
  - done.
  - by intros v s [HP _].
Qed.

Lemma triple_getitem P I (l : list A) i :
  (∀ s, P s → I s) → triple P (getitem l i) (λ _, P) I.
Proof.
  intros HPI s t HP. unfold getitem.
  destruct (_ ≫= _); [done|by apply HPI].
Qed.

Lemma triple_subscript P I cur (key : poem → A) :
  (∀ s, P s → I s) → triple P (subscript cur key) (λ _, P) I.
Proof. intros HPI s t HP. destruct cur; [done|by apply HPI]. Qed.

End triple_rules.

Lemma triple_when P I b (m : M unit) :
  (b = true → triple P m (λ _, P) I) → triple P (when b m) (λ _, P) I.
Proof. destruct b; intros Hm; [by apply Hm|apply triple_ret]. Qed.

(** ** The score bound is an invariant of every run *)

Lemma initialize_quiz_score_bounded P poems m :
  triple P (initialize_quiz (Some poems) m) (λ _, score_bounded) score_bounded.
Proof.
  intros s t _. rewrite initialize_quiz_loaded. unfold score_bounded. simpl. lia.
Qed.

(** Generating options touches neither the score nor the index nor the
    phase. *)
Lemma ensure_options_progress poems q_id cur s t :
  let s' := final_state (ensure_options poems q_id cur s t) in
  score s' = score s ∧ current_question_index s' = current_question_index s ∧
  is_answered s' = is_answered s.
Proof.
  unfold ensure_options, generate_options.
  unfold mbind, M_bind, mret, M_ret, has_attr, when, subscript, draw, set_attr, raise.
  destruct (options s); simpl; [done|].
  destruct cur; simpl; [|done].
  destruct (Random.sample _ 3 t) as [[chosen t1]|]; simpl; [|done].
  destruct (Random.shuffle _ t1); done.
Qed.

Lemma ensure_options_score_bounded poems q_id cur :
  triple score_bounded (ensure_options poems q_id cur)
    (λ _, score_bounded) score_bounded.
Proof.
  intros s t Hs.
  destruct (ensure_options_progress poems q_id cur s t) as (H1 & H2 & H3).
  unfold score_bounded in *.
  destruct (ensure_options poems q_id cur s t); simpl in *;
    by rewrite H1, H2, H3.
Qed.

Lemma advance_score_bounded :
  triple score_bounded advance (λ _, score_bounded) score_bounded.
Proof.
  intros [? ? ? [i|] [n|] [a|] [o|] ? [u|]] t Hs;
    unfold score_bounded in *; simpl in *; try done; destruct a; lia.
Qed.

Lemma submit_answer_score_bounded choice :
  triple (λ s, score_bounded s ∧ is_answered s = Some false)
    (submit_answer choice)
    (λ _ s, score_bounded s ∧ is_answered s = Some false) score_bounded.
Proof.
  intros [? ? ? [i|] [n|] [a|] ? [c|] ?] t [Hs Ha];
    unfold score_bounded in *; simpl in *; simplify_eq; try done.
  - unfold submit_answer, mbind, M_bind, when; simpl.
    case_bool_decide; simpl; lia.
  - lia.
Qed.

Lemma quiz_page_score_bounded poems w :
  triple score_bounded (quiz_page (Some poems) poems w)
    (λ _, score_bounded) score_bounded.
Proof.
  unfold quiz_page.
  eapply (triple_bind _ _ _ _ (λ _, score_bounded)); [by intros s t Hs|].
  intros stored. simpl.
  eapply triple_bind.
  { apply triple_when. intros _. apply initialize_quiz_score_bounded. }
  intros ?; simpl.
  eapply triple_bind; [by apply triple_read_attr|]. intros q_index. simpl.
  eapply triple_bind; [by apply triple_read_attr|]. intros order. simpl.
  destruct (decide _) as [Hlt|Hge].
  - eapply triple_bind; [by apply triple_getitem|]. intros q_id. simpl.
    eapply triple_bind; [apply ensure_options_score_bounded|]. intros ?; simpl.
    eapply triple_bind; [by apply triple_subscript|]. intros ?; simpl.
    eapply triple_bind; [by apply triple_read_attr|]. intros opts. simpl.
    eapply triple_bind; [by apply triple_read_attr|]. intros disabled. simpl.
    eapply triple_bind; [by apply triple_get_attr|]. intros [|]. 
    + eapply triple_weaken with (P := score_bounded) (Q := λ _, score_bounded);
        [by intros s [? _]|done|].
      eapply triple_bind; [by apply triple_read_attr|]. intros ?; simpl.
      eapply triple_bind; [by apply triple_read_attr|]. intros ?; simpl.
      apply triple_when. intros _. apply advance_score_bounded.
    + eapply triple_weaken
        with (P := λ s, score_bounded s ∧ is_answered s = Some false)
             (Q := λ _ s, score_bounded s ∧ is_answered s = Some false);
        [intros s Hs; exact Hs|by intros ? s [? _]|].
      apply triple_when. intros _. apply submit_answer_score_bounded.
  - eapply triple_bind; [by apply triple_read_attr|]. intros ?; simpl.
    eapply triple_bind; [by apply triple_read_attr|]. intros ?; simpl.
    apply triple_when. intros _.
    eapply triple_bind; [by apply triple_read_attr|]. intros m. simpl.
    eapply triple_bind; [apply initialize_quiz_score_bounded|]. intros ?.
    by apply triple_raise.
Qed.

Lemma script_score_bounded file w :
  triple score_bounded (script file w) (λ _, score_bounded) score_bounded.
Proof.
  unfold script, load_data. destruct file as [[|p ps]|]; try apply triple_ret.
  apply quiz_page_score_bounded.
Qed.

Lemma reachable_score_bounded file s : reachable file s → score_bounded s.
Proof.
  induction 1 as [|s w t Hs IH]; [done|].
  pose proof (script_score_bounded file w s t IH) as H.
  unfold run. by destruct (script file w s t).
Qed.

(** ** The current poem and the pool of decoys *)

Lemma find_poem_Some poems q_id cur :
  find_poem poems q_id = Some cur → cur ∈ poems ∧ id cur = q_id.
Proof.
  unfold find_poem. intros Hfind.
  apply fmap_Some in Hfind as ([i p] & Hfind & ->). simpl.
  apply list_find_Some in Hfind as (Hi & Hid & _).
  split; [by eapply list_elem_of_lookup_2|done].
Qed.

Lemma find_poem_elem_of poems q_id :
  q_id ∈ id <$> poems → ∃ cur, find_poem poems q_id = Some cur.
Proof.
  intros (p & -> & Hp)%list_elem_of_fmap. unfold find_poem.
  destruct (list_find_elem_of (λ p', id p' = id p) poems p Hp eq_refl) as [[i cur] ->].
  by exists cur.
Qed.

(** Equal keys mean equal records when the keys of a list are distinct. *)
Lemma NoDup_fmap_inj_on {A B} (f : A → B) (l : list A) x y :
  NoDup (f <$> l) → x ∈ l → y ∈ l → f x = f y → x = y.
Proof.
  induction l as [|a l IH]; [by intros _ ?%elem_of_nil|].
  rewrite fmap_cons, NoDup_cons. intros [Ha Hl].
  rewrite !elem_of_cons. intros [->|Hx] [->|Hy] Hxy; try done.
  - destruct Ha. rewrite Hxy. by apply list_elem_of_fmap_2.
  - destruct Ha. rewrite <- Hxy. by apply list_elem_of_fmap_2.
  - by apply IH.
Qed.

(** The pool leaves out at least the current poem... *)
Lemma other_lowers_length_lt poems q_id :
  q_id ∈ id <$> poems → (length (other_lowers poems q_id) < length poems)%nat.
Proof.
  intros (p & -> & Hp)%list_elem_of_fmap. unfold other_lowers.
  rewrite length_fmap. eapply length_filter_lt; [done|]. by intros Hne.
Qed.

(** ... and, with distinct ids, nothing but the current poem. *)
Lemma other_lowers_length_ge poems q_id :
  NoDup (id <$> poems) →
  (length poems ≤ S (length (other_lowers poems q_id)))%nat.
Proof.
  unfold other_lowers. rewrite length_fmap.
  induction poems as [|p ps IH]; [simpl; lia|].
  rewrite fmap_cons, NoDup_cons. intros [Hp Hps].
  destruct (decide (id p = q_id)) as [Heq|Hne].
  - rewrite filter_cons_False by (by intros Hne).
    assert (filter (λ p', id p' ≠ q_id) ps = ps) as ->; [|simpl; lia].
    clear IH Hps. induction ps as [|a ps IH]; [done|].
    rewrite fmap_cons, not_elem_of_cons in Hp. destruct Hp as [Ha Hp].
    rewrite filter_cons_True by congruence. by rewrite IH.
  - rewrite filter_cons_True by done. simpl. specialize (IH Hps). lia.
Qed.

(** With distinct lower halves, the correct answer is not in the pool and
    the pool has no repetition. *)
Lemma other_lowers_NoDup poems q_id cur :
  NoDup (lower <$> poems) → cur ∈ poems → id cur = q_id →
  NoDup (lower cur :: other_lowers poems q_id).
Proof.
  intros Hnd Hcur Hid. apply NoDup_cons. split.
  - unfold other_lowers.
    intros (p & Hlow & [Hne Hp]%list_elem_of_filter)%list_elem_of_fmap.
    apply Hne. rewrite <- Hid. f_equal. symmetry.
    by eapply (NoDup_fmap_inj_on lower).
  - unfold other_lowers. refine (sublist_NoDup _ _ Hnd _).
    apply fmap_sublist, sublist_filter.
Qed.

(** ** Generating the options *)

(** With a pool of at least three the block runs to its end: three
    decoys out of the pool, the correct answer appended, all shuffled. *)
Lemma generate_options_run poems q_id cur s t :
  (3 ≤ length (other_lowers poems q_id))%nat →
  ∃ wrong t1 rest opts t2,
    Random.sample (other_lowers poems q_id) 3 t = Some (wrong, t1) ∧
    length wrong = 3%nat ∧
    wrong ++ rest ≡ₚ other_lowers poems q_id ∧
    Random.shuffle (wrong ++ [lower cur]) t1 = (opts, t2) ∧
    opts ≡ₚ wrong ++ [lower cur] ∧
    generate_options poems q_id (Some cur) s t =
      Returned () (set_correct_answer (Some (lower cur)) (set_options (Some opts) s)) t2.
Proof.
  intros Hpool.
  destruct (sample_Some (other_lowers poems q_id) 3 t Hpool)
    as (wrong & t1 & rest & Hsample & Hlen & Hperm).
  pose proof (shuffle_Permutation (wrong ++ [lower cur]) t1) as Hshuffle.
  destruct (Random.shuffle (wrong ++ [lower cur]) t1) as [opts t2] eqn:Hs.
  exists wrong, t1, rest, opts, t2. repeat split; try done.
  unfold generate_options, mbind, M_bind, subscript, draw, mret, M_ret. simpl.
  rewrite Hsample, Hs. reflexivity.
Qed.

(** With a smaller pool [random.sample] raises and the store is as
    before. *)
Lemma generate_options_short poems q_id cur s t :
  (length (other_lowers poems q_id) < 3)%nat →
  generate_options poems q_id (Some cur) s t = Raised ValueError s t.
Proof.
  intros Hpool.
  unfold generate_options, mbind, M_bind, subscript, mret, M_ret. simpl.
  by rewrite sample_None.
Qed.

Lemma ensure_options_absent poems q_id cur s t :
  options s = None →
  ensure_options poems q_id cur s t = generate_options poems q_id cur s t.
Proof.
  intros Ho. unfold ensure_options, mbind, M_bind, has_attr. by rewrite Ho.
Qed.

(** ** The four options *)

(** C7: for a corpus of at least 4 poems (with unique ids, the corpus
    invariant of the data model) and a position [index] of the order,
    generating the options for [order[index]] returns normally and leaves
    exactly 4 options, among them the correct answer, which is the lower
    half of the one record whose id is [order[index]]. *)
Theorem ensure_options_four poems order index q_id s t :
  NoDup (id <$> poems) → (4 ≤ length poems)%nat →
  order ≡ₚ id <$> poems → order !! index = Some q_id →
  options s = None →
  ∃ s' t' opts cur,
    ensure_options poems q_id (find_poem poems q_id) s t = Returned () s' t' ∧
    options s' = Some opts ∧ length opts = 4%nat ∧
    correct_answer s' = Some (lower cur) ∧ lower cur ∈ opts ∧
    cur ∈ poems ∧ id cur = q_id ∧
    (∀ p, p ∈ poems → id p = q_id → p = cur).
Proof.
  intros Hnd Hlen Hperm Hidx Ho.
  assert (q_id ∈ id <$> poems) as Hq.
  { rewrite <- Hperm. by eapply list_elem_of_lookup_2. }
  destruct (find_poem_elem_of poems q_id Hq) as [cur Hcur].
  destruct (find_poem_Some _ _ _ Hcur) as [Hin Hid].
  pose proof (other_lowers_length_ge poems q_id Hnd) as Hpool.
  destruct (generate_options_run poems q_id cur s t ltac:(lia))
    as (wrong & t1 & rest & opts & t2 & _ & Hwrong & _ & _ & Hopts & Hrun).
  rewrite Hcur, ensure_options_absent, Hrun by done.
  eexists _, _, opts, cur. split; [reflexivity|]. simpl.
  repeat split; try done.
  - by rewrite Hopts, length_app, Hwrong.
  - rewrite Hopts. apply elem_of_app. right. apply list_elem_of_singleton. done.
  - intros p Hp Hpid. apply (NoDup_fmap_inj_on id poems); congruence.
Qed.

Lemma ensure_options_four_witness :
  ∃ s' t' opts cur,
    ensure_options five_poems 1 (find_poem five_poems 1) initial_view [] =
      Returned () s' t' ∧
    options s' = Some opts ∧ length opts = 4%nat ∧
    correct_answer s' = Some (lower cur) ∧ lower cur ∈ opts ∧
    cur ∈ five_poems ∧ id cur = 1 ∧
    (∀ p, p ∈ five_poems → id p = 1 → p = cur).
Proof.
  apply (ensure_options_four five_poems [1; 2; 3; 4; 5] 0 1 initial_view []).
  - apply (bool_decide_unpack _). vm_compute. exact I.
  - simpl. lia.
  - apply (bool_decide_unpack _). vm_compute. exact I.
  - reflexivity.
  - reflexivity.
Defined.

(** C5, as the code has it: the decoys are drawn by position, so the four
    options are pairwise distinct when the lower halves of the corpus are
    pairwise distinct (at least 4 poems, unique ids). *)
Theorem ensure_options_distinct poems order index q_id s t :
  NoDup (id <$> poems) → (4 ≤ length poems)%nat →
  NoDup (lower <$> poems) →
  order ≡ₚ id <$> poems → order !! index = Some q_id →
  options s = None →
  ∃ s' t' opts,
    ensure_options poems q_id (find_poem poems q_id) s t = Returned () s' t' ∧
    options s' = Some opts ∧ length opts = 4%nat ∧ NoDup opts.
Proof.
  intros Hnd Hlen Hlow Hperm Hidx Ho.
  assert (q_id ∈ id <$> poems) as Hq.
  { rewrite <- Hperm. by eapply list_elem_of_lookup_2. }
  destruct (find_poem_elem_of poems q_id Hq) as [cur Hcur].
  destruct (find_poem_Some _ _ _ Hcur) as [Hin Hid].
  pose proof (other_lowers_length_ge poems q_id Hnd) as Hpool.
  destruct (generate_options_run poems q_id cur s t ltac:(lia))
    as (wrong & t1 & rest & opts & t2 & _ & Hwrong & Hsub & _ & Hopts & Hrun).
  rewrite Hcur, ensure_options_absent, Hrun by done.
  eexists _, _, opts. split; [reflexivity|]. simpl.
  split; [done|]. split; [by rewrite Hopts, length_app, Hwrong|].
  rewrite Hopts.
  pose proof (other_lowers_NoDup poems q_id cur Hlow Hin Hid) as Hpoolnd.
  rewrite <- Hsub in Hpoolnd.
  apply NoDup_cons in Hpoolnd as [Hnotin Hnd'].
  apply NoDup_app in Hnd' as (Hw & _ & _).
  apply NoDup_app. split; [done|]. split; [|apply NoDup_singleton].
  intros x Hx ->%list_elem_of_singleton.
  apply Hnotin, elem_of_app. by left.
Qed.

Lemma ensure_options_distinct_witness :
  ∃ s' t' opts,
    ensure_options five_poems 1 (find_poem five_poems 1) initial_view [] =
      Returned () s' t' ∧
    options s' = Some opts ∧ length opts = 4%nat ∧ NoDup opts.
Proof.
  apply (ensure_options_distinct five_poems [1; 2; 3; 4; 5] 0 1 initial_view []).
  - apply (bool_decide_unpack _). vm_compute. exact I.
  - simpl. lia.
  - apply (bool_decide_unpack _). vm_compute. exact I.
  - apply (bool_decide_unpack _). vm_compute. exact I.
  - reflexivity.
  - reflexivity.
Defined.

(** C5 as stated fails: [twin_poems] has four distinct lower halves
    (a, b, c, d), yet a run can show the options [c; d; a; a]. *)
Lemma twin_options_repeat :
  length (remove_dups (lower <$> twin_poems)) = 4%nat ∧
  NoDup (id <$> twin_poems) ∧
  options (final_state (run (Some twin_poems) (visitor 0 None) fresh [2]%nat))
    = Some ["c"; "d"; "a"; "a"] ∧
  ¬ NoDup ["c"; "d"; "a"; "a"].
Proof.
  split; [reflexivity|]. split; [|split; [reflexivity|]].
  - apply (bool_decide_unpack _). vm_compute. exact I.
  - intros Hnd. apply (bool_decide_pack _) in Hnd. vm_compute in Hnd. exact Hnd.
Qed.

(** ** Equal lower halves *)

(** C10: answers are graded by comparing strings.  When another poem of
    the corpus has the same lower half as the current one, there is a run
    in which that string is drawn as a decoy, so that it stands twice
    among the options; and submitting an option equal to the correct
    answer adds 1 to the score whichever of the entries was picked, while
    any other string leaves the score as it is. *)
Theorem duplicate_decoy_scores poems q_id cur twin s n :
  find_poem poems q_id = Some cur →
  twin ∈ poems → id twin ≠ q_id → lower twin = lower cur →
  (3 ≤ length (other_lowers poems q_id))%nat →
  options s = None → score s = Some n →
  ∃ t wrong t1 s' t' opts,
    Random.sample (other_lowers poems q_id) 3 t = Some (wrong, t1) ∧
    lower twin ∈ wrong ∧
    ensure_options poems q_id (Some cur) s t = Returned () s' t' ∧
    options s' = Some opts ∧ opts ≡ₚ wrong ++ [lower cur] ∧
    correct_answer s' = Some (lower cur) ∧
    ∀ choice t2,
      raised (submit_answer (Some choice) s' t2) = Some RerunException ∧
      (choice = lower cur →
         score (final_state (submit_answer (Some choice) s' t2)) = Some (n + 1)) ∧
      (choice ≠ lower cur →
         score (final_state (submit_answer (Some choice) s' t2)) = Some n).
Proof.
  intros Hcur Htwin Hid Hlow Hpool Ho Hn.
  assert (lower twin ∈ other_lowers poems q_id) as Hin.
  { unfold other_lowers. apply list_elem_of_fmap_2, list_elem_of_filter. done. }
  apply list_elem_of_lookup_1 in Hin as [j Hj].
  destruct (sample_first _ 2 j _ Hj Hpool) as (chosen & t1' & Hfirst).
  destruct (generate_options_run poems q_id cur s [j] Hpool)
    as (wrong & t1 & rest & opts & t2 & Hsample & _ & _ & _ & Hopts & Hrun).
  rewrite Hfirst in Hsample. injection Hsample as <- <-.
  exists [j], (lower twin :: chosen), t1'. eexists _, _, opts.
  split; [done|]. split; [apply elem_of_cons; by left|].
  rewrite ensure_options_absent, Hrun by done.
  split; [reflexivity|]. simpl. split; [done|]. split; [done|]. split; [done|].
  intros choice t3.
  rewrite (submit_answer_run (Some choice) (lower cur) n) by done.
  unfold submitted. simpl. split; [done|]. split.
  - intros ->. by rewrite bool_decide_true.
  - intros Hne. rewrite bool_decide_false; [done|]. by intros [= ->].
Qed.

Lemma duplicate_decoy_scores_witness :
  ∃ t wrong t1 s' t' opts,
    Random.sample (other_lowers twin_poems 1) 3 t = Some (wrong, t1) ∧
    lower (poem_of 5 "a") ∈ wrong ∧
    ensure_options twin_poems 1 (Some (poem_of 1 "a")) initial_view t =
      Returned () s' t' ∧
    options s' = Some opts ∧ opts ≡ₚ wrong ++ [lower (poem_of 1 "a")] ∧
    correct_answer s' = Some (lower (poem_of 1 "a")) ∧
    ∀ choice t2,
      raised (submit_answer (Some choice) s' t2) = Some RerunException ∧
      (choice = lower (poem_of 1 "a") →
         score (final_state (submit_answer (Some choice) s' t2)) = Some (0 + 1)) ∧
      (choice ≠ lower (poem_of 1 "a") →
         score (final_state (submit_answer (Some choice) s' t2)) = Some 0).
Proof.
  apply (duplicate_decoy_scores twin_poems 1 (poem_of 1 "a") (poem_of 5 "a")
           initial_view 0).
  - reflexivity.
  - apply (bool_decide_unpack _). vm_compute. exact I.
  - discriminate.
  - reflexivity.
  - simpl. lia.
  - reflexivity.
  - reflexivity.
Defined.

(** ** Too small a corpus *)

(** C1, as the code has it: [initialize_quiz] has no size check.  For a
    corpus of 1 to 3 poems it returns normally with the first question
    lined up, and the run that called it then ends in the [ValueError]
    that [random.sample] raises while the options of that first question
    are generated. *)
Theorem small_corpus_fails_at_generation poems w s t :
  (0 < length poems < 4)%nat → mode s ≠ Some (mode_selector w) →
  ∃ s1 t1 q_id rest cur,
    initialize_quiz (Some poems) (mode_selector w) s t = Returned () s1 t1 ∧
    question_list s1 = Some (q_id :: rest) ∧
    current_question_index s1 = Some 0 ∧
    find_poem poems q_id = Some cur ∧
    generate_options poems q_id (Some cur) s1 t1 = Raised ValueError s1 t1 ∧
    run (Some poems) w s t = Raised ValueError s1 t1.
Proof.
  intros [Hpos Hlt] Hmode.
  pose proof (initialize_quiz_loaded poems (mode_selector w) s t) as Hinit.
  pose proof (order_for_Permutation (mode_selector w) (id <$> poems) t) as Hperm.
  destruct (order_for (mode_selector w) (id <$> poems) t) as [order t1].
  simpl in Hinit, Hperm.
  destruct order as [|q_id rest].
  { apply Permutation_length in Hperm. rewrite length_fmap in Hperm.
    simpl in Hperm. lia. }
  assert (q_id ∈ id <$> poems) as Hq.
  { rewrite <- Hperm. apply elem_of_cons. by left. }
  destruct (find_poem_elem_of poems q_id Hq) as [cur Hcur].
  pose proof (other_lowers_length_lt poems q_id Hq) as Hpool.
  eexists _, t1, q_id, rest, cur.
  split; [exact Hinit|]. split; [reflexivity|]. split; [reflexivity|].
  split; [exact Hcur|].
  split; [apply generate_options_short; lia|].
  unfold run, script, load_data.
  destruct poems as [|p ps]; [simpl in Hpos; lia|].
  unfold quiz_page, mbind, M_bind. simpl.
  rewrite bool_decide_true by done. unfold when.
  rewrite Hinit. unfold get_attr. simpl.
  unfold getitem, mret, M_ret. simpl.
  rewrite ensure_options_absent by done.
  rewrite Hcur. rewrite generate_options_short by lia. reflexivity.
Qed.

Lemma small_corpus_fails_at_generation_witness :
  ∃ s1 t1 q_id rest cur,
    initialize_quiz (Some three_poems) (mode_selector (visitor 0 None)) fresh []
      = Returned () s1 t1 ∧
    question_list s1 = Some (q_id :: rest) ∧
    current_question_index s1 = Some 0 ∧
    find_poem three_poems q_id = Some cur ∧
    generate_options three_poems q_id (Some cur) s1 t1 = Raised ValueError s1 t1 ∧
    run (Some three_poems) (visitor 0 None) fresh [] = Raised ValueError s1 t1.
Proof.
  apply (small_corpus_fails_at_generation three_poems (visitor 0 None) fresh []).
  - simpl. lia.
  - discriminate.
Defined.

(** C1 as stated fails: on three poems [initialize_quiz] does not fail,
    and the failure shows up only in the option generation of the run. *)
Lemma three_poems_initialize_succeeds :
  length three_poems = 3%nat ∧
  raised (initialize_quiz (Some three_poems) mode_sequential fresh []) = None ∧
  raised (initialize_quiz (Some three_poems) mode_random fresh []) = None ∧
  raised (run (Some three_poems) (visitor 0 None) fresh []) = Some ValueError.
Proof. repeat split; reflexivity. Qed.

(** ** The score and the index *)

(** C2, as the code has it: in every store a session can reach, the score
    is at least 0 and at most the index while the current question is
    unanswered, and at most the index plus 1 once it is answered (the
    point for the current question is added at submission, the index
    moves only with the next-question button). *)
Theorem score_index_invariant file s n i :
  reachable file s →
  score s = Some n → current_question_index s = Some i →
  ∃ a, is_answered s = Some a ∧ 0 ≤ n ∧ n ≤ i + (if a then 1 else 0).
Proof.
  intros Hs Hn Hi. apply reachable_score_bounded in Hs.
  unfold score_bounded in Hs. rewrite Hn, Hi in Hs.
  destruct (is_answered s) as [a|]; [|done]. by exists a.
Qed.

Lemma answered_view_reachable : reachable (Some five_poems) answered_view.
Proof. apply reachable_run, reachable_run, reachable_fresh. Qed.

Lemma score_index_invariant_witness :
  ∃ a, is_answered answered_view = Some a ∧ 0 ≤ 1 ∧ 1 ≤ 0 + (if a then 1 else 0).
Proof.
  apply (score_index_invariant (Some five_poems) answered_view 1 0).
  - apply reachable_run, reachable_run, reachable_fresh.
  - reflexivity.
  - reflexivity.
Defined.

(** C2 as stated fails: after a correct answer to the first question the
    store has score 1 and index 0. *)
Lemma score_exceeds_index :
  reachable (Some five_poems) answered_view ∧
  score answered_view = Some 1 ∧
  current_question_index answered_view = Some 0 ∧
  ¬ (0 ≤ 1 ≤ 0).
Proof.
  split; [apply answered_view_reachable|].
  repeat split; try reflexivity. lia.
Qed.

(** ** Peeling a run *)

(** A run that finds another mode in the sidebar than in the store goes
    on exactly like a run from the store [initialize_quiz] leaves. *)
Lemma script_after_initialize poems w s t :
  poems ≠ [] → mode s ≠ Some (mode_selector w) →
  script (Some poems) w s t =
    match initialize_quiz (Some poems) (mode_selector w) s t with
    | Returned _ s' t' => script (Some poems) w s' t'
    | Raised e s' t' => Raised e s' t'
    end.
Proof.
  intros Hne Hm. rewrite initialize_quiz_loaded.
  assert (script (Some poems) w = quiz_page (Some poems) poems w) as ->.
  { destruct poems; [done | reflexivity]. }
  set (s1 := SessionState _ _ _ _ _ _ _ _ _).
  set (t1 := (order_for _ _ t).2).
  assert (mode s1 = Some (mode_selector w)) as Hs1 by done.
  assert (initialize_quiz (Some poems) (mode_selector w) s t = Returned () s1 t1)
    as Hinit by apply initialize_quiz_loaded.
  clearbody s1 t1.
  unfold quiz_page, mbind, M_bind. cbv beta.
  rewrite Hs1.
  rewrite bool_decide_true by done.
  rewrite bool_decide_false by (intros ?; done).
  unfold when. rewrite Hinit. reflexivity.
Qed.

(** A run at a question without options goes on, after generating them,
    exactly like a run from the store that holds them. *)
Lemma script_after_generate poems w s t i order q_id cur :
  poems ≠ [] →
  mode s = Some (mode_selector w) →
  current_question_index s = Some i →
  question_list s = Some order →
  0 ≤ i < Z.of_nat (length order) →
  order !! Z.to_nat i = Some q_id →
  find_poem poems q_id = Some cur →
  options s = None →
  script (Some poems) w s t =
    match generate_options poems q_id (Some cur) s t with
    | Returned _ s' t' => script (Some poems) w s' t'
    | Raised e s' t' => Raised e s' t'
    end.
Proof.
  intros Hne Hm Hi Hq Hrange Hid Hcur Ho.
  assert (script (Some poems) w = quiz_page (Some poems) poems w) as ->.
  { destruct poems; [done | reflexivity]. }
  destruct s as [m ap ql qi sc an op ca ula]; simpl in *; simplify_eq.
  unfold quiz_page at 1. unfold mbind, M_bind; simpl.
  rewrite bool_decide_false by (intros ?; done).
  unfold mret, M_ret, get_attr, when; simpl.
  rewrite decide_True by lia.
  rewrite (getitem_in_range _ _ q_id) by (done || lia).
  rewrite ensure_options_absent by done. rewrite Hcur.
  unfold generate_options, mbind, M_bind, subscript, mret, M_ret, draw, set_attr; simpl.
  destruct (Random.sample _ 3 t) as [[wrong t1]|]; [|reflexivity].
  destruct (Random.shuffle _ t1) as [opts t2]. simpl.
  unfold quiz_page, mbind, M_bind; simpl.
  rewrite bool_decide_false by (intros ?; done).
  unfold mret, M_ret, get_attr, when; simpl.
  rewrite decide_True by lia.
  rewrite (getitem_in_range _ _ q_id) by (done || lia).
  rewrite ensure_options_present by (simpl; eauto).
  rewrite Hcur. reflexivity.
Qed.

(** A run after the last question only waits for the retry button. *)
Lemma script_at_completion poems w s t i order n :
  poems ≠ [] →
  mode s = Some (mode_selector w) →
  current_question_index s = Some i →
  question_list s = Some order →
  ¬ i < Z.of_nat (length order) →
  score s = Some n →
  script (Some poems) w s t =
    if st_button w retry_button
    then match initialize_quiz (Some poems) (mode_selector w) s t with
         | Returned _ s' t' => Raised RerunException s' t'
         | Raised e s' t' => Raised e s' t'
         end
    else Returned () s t.
Proof.
  intros Hne Hm Hi Hq Hrange Hn.
  assert (script (Some poems) w = quiz_page (Some poems) poems w) as ->.
  { destruct poems; [done | reflexivity]. }
  unfold quiz_page, mbind, M_bind, get_attr. cbv beta iota.
  rewrite Hm. rewrite bool_decide_false by (intros ?; done).
  unfold when at 1. unfold mret, M_ret. cbv beta iota.
  rewrite Hi. cbv beta iota. rewrite Hq. cbv beta iota.
  rewrite decide_False by done.
  rewrite Hn. cbv beta iota. rewrite Hq. cbv beta iota.
  destruct (st_button w retry_button); [|reflexivity].
  unfold when. rewrite Hm. cbv beta iota.
  destruct (initialize_quiz _ _ s t); reflexivity.
Qed.

(** ** Runs on a corpus of at least four poems with distinct ids *)

Section good_corpus.
Context (poems : list poem).
Hypothesis enough : (4 ≤ length poems)%nat.
Hypothesis distinct_ids : NoDup (id <$> poems).

Lemma poems_nonempty : poems ≠ [].
Proof.
  pose proof enough as Hlen. intros Heq. rewrite Heq in Hlen.
  simpl in Hlen. lia.
Qed.

Lemma coherent_initialized m t c :
  coherent poems
    (SessionState (Some m) (Some (Some poems))
       (Some (order_for m (id <$> poems) t).1) (Some 0) (Some 0) (Some false)
       None c None).
Proof.
  pose proof (order_for_Permutation m (id <$> poems) t) as Hperm.
  exists m, (order_for m (id <$> poems) t).1, 0, 0, false. simpl.
  repeat split; try done; try lia.
  intros Hm. unfold order_for. by rewrite decide_False.
Qed.

(** The question at an index inside the order has its poem. *)
Lemma question_at order i :
  order ≡ₚ id <$> poems → 0 ≤ i < Z.of_nat (length order) →
  ∃ q_id cur, order !! Z.to_nat i = Some q_id ∧ find_poem poems q_id = Some cur.
Proof.
  intros Hperm Hi.
  destruct (lookup_lt_is_Some_2 order (Z.to_nat i) ltac:(lia)) as [q_id Hq].
  assert (q_id ∈ id <$> poems) as Hin.
  { rewrite <- Hperm. by eapply list_elem_of_lookup_2. }
  destruct (find_poem_elem_of poems q_id Hin) as [cur Hcur]. eauto.
Qed.

Lemma st_radio_elem_of w (opts : list string) :
  opts ≠ [] → ∃ x, st_radio w opts = Some x ∧ x ∈ opts.
Proof.
  intros Hne. unfold st_radio.
  destruct (opts !! answer_selector w) as [x|] eqn:Hx.
  - exists x. split; [done|]. by eapply list_elem_of_lookup_2.
  - destruct opts as [|x opts]; [done|]. exists x. split; [done|]. by left.
Qed.

(** At a question whose options are in the store. *)
Lemma run_ready w s t :
  coherent poems s → mode s = Some (mode_selector w) → is_Some (options s) →
  coherent poems (final_state (run (Some poems) w s t)) ∧
  ends_well (run (Some poems) w s t).
Proof.
  intros Hs Hm [opts Ho].
  pose proof Hs as (m & order & i & n & a & Hm' & Hap & Hq & Hperm & Hsort & Hi & Hrange
                    & Hn & Hbound & Ha & Hopts & Hans).
  rewrite Ho in Hopts, Hans. simpl in Hopts.
  destruct Hopts as (Hlt & q_id & cur & wrong & rest & Hid & Hcur & Hc & Hw & Hsub & Hp).
  unfold run.
  rewrite (script_at_question poems w s t i order q_id cur a)
    by (done || apply poems_nonempty || lia || rewrite Ho; eauto).
  assert (opts ≠ []) as Hne.
  { intros ->. apply Permutation_length in Hp. rewrite length_app in Hp.
    simpl in Hp. lia. }
  destruct a; simpl in Hans.
  - destruct Hans as (opts' & x & Ho' & Hu & Hx).
    unfold mbind, M_bind, get_attr. rewrite Hu, Hc.
    destruct (st_button w next_button); simpl; [|by split; [|left]].
    rewrite (advance_run i) by (done || rewrite Ho; eauto || rewrite Hu; eauto).
    simpl. split; [|by right].
    exists m, order, (i + 1), n, false. unfold advanced. simpl.
    repeat split; try done; lia.
  - unfold mbind, M_bind, get_attr. rewrite Ho.
    destruct (st_button w submit_button); simpl; [|by split; [|left]].
    rewrite (submit_answer_run _ (lower cur) n) by done.
    simpl. split; [|by right].
    destruct (st_radio_elem_of w opts Hne) as (x & Hx & Hin).
    exists m, order, i, (if bool_decide (st_radio w opts = Some (lower cur))
                         then n + 1 else n), true.
    unfold submitted. simpl. rewrite Ho.
    repeat split; try done; try (case_bool_decide; lia).
    all: try by exists q_id, cur, wrong, rest.
    all: try lia.
    exists opts, x. by rewrite Hx.
Qed.

(** With the sidebar on the stored mode. *)
Lemma run_matching w s t :
  coherent poems s → mode s = Some (mode_selector w) →
  coherent poems (final_state (run (Some poems) w s t)) ∧
  ends_well (run (Some poems) w s t).
Proof.
  intros Hs Hm.
  destruct (options s) as [opts|] eqn:Ho.
  { apply run_ready; [done..|]. rewrite Ho. eauto. }
  pose proof Hs as (m & order & i & n & a & Hm' & Hap & Hq & Hperm & Hsort & Hi & Hrange
                    & Hn & Hbound & Ha & Hopts & Hans).
  rewrite Ho in Hans.
  destruct a; simpl in Hans; [by destruct Hans as (? & ? & ? & _)|].
  destruct (decide (i < Z.of_nat (length order))) as [Hlt|Hge].
  - destruct (question_at order i Hperm ltac:(lia)) as (q_id & cur & Hid & Hcur).
    pose proof (other_lowers_length_ge poems q_id distinct_ids) as Hpool.
    destruct (generate_options_run poems q_id cur s t ltac:(lia))
      as (wrong & t1 & rest & opts & t2 & _ & Hw & Hsub & _ & Hp & Hrun).
    unfold run.
    rewrite (script_after_generate poems w s t i order q_id cur)
      by (done || apply poems_nonempty || lia).
    rewrite Hrun. apply run_ready; [|done|simpl; eauto].
    exists m, order, i, n, false. simpl.
    repeat split; try done; try lia.
    by exists q_id, cur, wrong, rest.
  - unfold run.
    rewrite (script_at_completion poems w s t i order n)
      by (done || apply poems_nonempty).
    destruct (st_button w retry_button); [|by split; [|left]].
    rewrite initialize_quiz_loaded. simpl.
    split; [apply coherent_initialized|by right].
Qed.

(** Every run keeps the store coherent and ends well. *)
Lemma run_coherent w s t :
  s = fresh ∨ coherent poems s →
  coherent poems (final_state (run (Some poems) w s t)) ∧
  ends_well (run (Some poems) w s t).
Proof.
  intros Hs.
  destruct (decide (mode s = Some (mode_selector w))) as [Hm|Hm].
  - destruct Hs as [->|Hs]; [done|]. by apply run_matching.
  - unfold run.
    rewrite script_after_initialize by (done || apply poems_nonempty).
    rewrite initialize_quiz_loaded.
    apply run_matching; [apply coherent_initialized|done].
Qed.

Lemma reachable_coherent s :
  reachable (Some poems) s → s = fresh ∨ coherent poems s.
Proof.
  induction 1 as [|s w t Hs IH]; [by left|].
  right. by apply run_coherent.
Qed.

End good_corpus.

(** ** What holds in every store a session can reach *)

(** X1: on a corpus of at least four poems with distinct ids no run of the
    script crashes: from every store a session can reach, a run ends
    normally or by [st.rerun()], never in [ValueError], [AttributeError],
    [TypeError] or [IndexError]. *)
Theorem run_never_crashes poems w s t :
  (4 ≤ length poems)%nat → NoDup (id <$> poems) →
  reachable (Some poems) s →
  raised (run (Some poems) w s t) = None ∨
  raised (run (Some poems) w s t) = Some RerunException.
Proof.
  intros Hlen Hnd Hs.
  apply (run_coherent poems Hlen Hnd w s t).
  by apply reachable_coherent.
Qed.

Lemma run_never_crashes_witness :
  raised (run (Some five_poems) (visitor 1 (Some next_button)) answered_view [7; 8]%nat)
    = None ∨
  raised (run (Some five_poems) (visitor 1 (Some next_button)) answered_view [7; 8]%nat)
    = Some RerunException.
Proof.
  apply (run_never_crashes five_poems (visitor 1 (Some next_button)) answered_view
           [7; 8]%nat).
  - simpl. lia.
  - apply (bool_decide_unpack _). vm_compute. exact I.
  - apply reachable_run, reachable_run, reachable_fresh.
Defined.

(** X2: in every reachable store the index lies between 0 and the number
    of questions, the score lies between 0 and the number of questions,
    and there are as many questions as poems. *)
Theorem index_and_score_within_order poems s order i n :
  (4 ≤ length poems)%nat → NoDup (id <$> poems) →
  reachable (Some poems) s →
  question_list s = Some order →
  current_question_index s = Some i →
  score s = Some n →
  0 ≤ i ≤ Z.of_nat (length order) ∧ 0 ≤ n ≤ Z.of_nat (length order) ∧
  length order = length poems.
Proof.
  intros Hlen Hnd Hs Hq Hi Hn.
  destruct (reachable_coherent poems Hlen Hnd s Hs) as [->|Hc]; [done|].
  destruct Hc as (m & order' & i' & n' & a & _ & _ & Hq' & Hperm & _ & Hi' & Hrange
                  & Hn' & Hbound & _ & Hopts & Hans).
  simplify_eq. split; [done|]. split.
  - destruct a; [|lia].
    destruct Hans as (opts & x & Ho & _). rewrite Ho in Hopts.
    destruct Hopts as [Hlt _]. lia.
  - apply Permutation_length in Hperm. by rewrite length_fmap in Hperm.
Qed.

Lemma index_and_score_within_order_witness :
  0 ≤ 0 ≤ Z.of_nat (length [1; 2; 3; 4; 5]) ∧
  0 ≤ 1 ≤ Z.of_nat (length [1; 2; 3; 4; 5]) ∧
  length [1; 2; 3; 4; 5] = length five_poems.
Proof.
  apply (index_and_score_within_order five_poems answered_view [1; 2; 3; 4; 5] 0 1).
  - simpl. lia.
  - apply (bool_decide_unpack _). vm_compute. exact I.
  - apply reachable_run, reachable_run, reachable_fresh.
  - reflexivity.
  - reflexivity.
  - reflexivity.
Defined.

(** X3: whatever was clicked since, the question list in a reachable
    store is a rearrangement of the corpus ids, each id once, strictly
    ascending unless the stored mode is the random one, and [all_poems]
    holds the corpus. *)
Theorem order_stays_permutation poems s order :
  (4 ≤ length poems)%nat → NoDup (id <$> poems) →
  reachable (Some poems) s →
  question_list s = Some order →
  order ≡ₚ id <$> poems ∧ NoDup order ∧
  (mode s ≠ Some mode_random → StronglySorted Z.lt order) ∧
  all_poems s = Some (Some poems).
Proof.
  intros Hlen Hnd Hs Hq.
  destruct (reachable_coherent poems Hlen Hnd s Hs) as [->|Hc]; [done|].
  destruct Hc as (m & order' & i' & n' & a & Hm & Hap & Hq' & Hperm & Hsort & _).
  rewrite Hq in Hq'. injection Hq' as <-.
  assert (NoDup order) as Hnd' by by apply (NoDup_Permutation_proper _ _ Hperm).
  split; [done|]. split; [done|]. split; [|done].
  intros Hmode. apply StronglySorted_le_lt; [|done].
  rewrite Hsort by congruence.
  apply StronglySorted_merge_sort; apply _.
Qed.

Lemma order_stays_permutation_witness :
  [1; 2; 3; 4; 5] ≡ₚ id <$> five_poems ∧ NoDup [1; 2; 3; 4; 5] ∧
  (mode answered_view ≠ Some mode_random → StronglySorted Z.lt [1; 2; 3; 4; 5]) ∧
  all_poems answered_view = Some (Some five_poems).
Proof.
  apply (order_stays_permutation five_poems answered_view [1; 2; 3; 4; 5]).
  - simpl. lia.
  - apply (bool_decide_unpack _). vm_compute. exact I.
  - apply reachable_run, reachable_run, reachable_fresh.
  - reflexivity.
Defined.

(** X4: options in a reachable store always belong to the question at
    the index: there are four of them, [correct_answer] is the lower half
    of the poem whose id stands at the index and is among them, and every
    other one is the lower half of a poem with another id. *)
Theorem options_fit_question poems s opts :
  (4 ≤ length poems)%nat → NoDup (id <$> poems) →
  reachable (Some poems) s →
  options s = Some opts →
  ∃ order i q_id cur,
    question_list s = Some order ∧ current_question_index s = Some i ∧
    0 ≤ i < Z.of_nat (length order) ∧ order !! Z.to_nat i = Some q_id ∧
    find_poem poems q_id = Some cur ∧
    correct_answer s = Some (lower cur) ∧
    length opts = 4%nat ∧ lower cur ∈ opts ∧
    ∀ x, x ∈ opts →
      x = lower cur ∨ ∃ p, p ∈ poems ∧ id p ≠ q_id ∧ lower p = x.
Proof.
  intros Hlen Hnd Hs Ho.
  destruct (reachable_coherent poems Hlen Hnd s Hs) as [->|Hc]; [done|].
  destruct Hc as (m & order & i & n & a & _ & _ & Hq & Hperm & _ & Hi & Hrange
                  & _ & _ & _ & Hopts & _).
  rewrite Ho in Hopts.
  destruct Hopts as (Hlt & q_id & cur & wrong & rest & Hid & Hcur & Hc & Hw & Hsub & Hp).
  exists order, i, q_id, cur. repeat split; try done; try lia.
  - by rewrite Hp, length_app, Hw.
  - rewrite Hp. apply elem_of_app. right. by apply list_elem_of_singleton.
  - intros x. rewrite Hp, elem_of_app, list_elem_of_singleton.
    intros [Hx|Hx]; [right|by left].
    assert (x ∈ other_lowers poems q_id) as Hin.
    { rewrite <- Hsub. apply elem_of_app. by left. }
    unfold other_lowers in Hin.
    apply list_elem_of_fmap in Hin as (p & -> & [Hne Hp']%list_elem_of_filter).
    by exists p.
Qed.

Lemma options_fit_question_witness :
  ∃ order i q_id cur,
    question_list answered_view = Some order ∧
    current_question_index answered_view = Some i ∧
    0 ≤ i < Z.of_nat (length order) ∧ order !! Z.to_nat i = Some q_id ∧
    find_poem five_poems q_id = Some cur ∧
    correct_answer answered_view = Some (lower cur) ∧
    length ["d"; "e"; "a"; "c"] = 4%nat ∧ lower cur ∈ ["d"; "e"; "a"; "c"] ∧
    ∀ x, x ∈ ["d"; "e"; "a"; "c"] →
      x = lower cur ∨ ∃ p, p ∈ five_poems ∧ id p ≠ q_id ∧ lower p = x.
Proof.
  apply (options_fit_question five_poems answered_view ["d"; "e"; "a"; "c"]).
  - simpl. lia.
  - apply (bool_decide_unpack _). vm_compute. exact I.
  - apply reachable_run, reachable_run, reachable_fresh.
  - reflexivity.
Defined.

(** X5: in a reachable store the last answer is there exactly while the
    question is answered, and then it is one of the options shown. *)
Theorem last_answer_is_an_option poems s a :
  (4 ≤ length poems)%nat → NoDup (id <$> poems) →
  reachable (Some poems) s →
  is_answered s = Some a →
  if a
  then ∃ opts x, options s = Some opts ∧ user_last_answer s = Some (Some x) ∧ x ∈ opts
  else user_last_answer s = None.
Proof.
  intros Hlen Hnd Hs Ha.
  destruct (reachable_coherent poems Hlen Hnd s Hs) as [->|Hc]; [done|].
  destruct Hc as (m & order & i & n & a' & _ & _ & _ & _ & _ & _ & _
                  & _ & _ & Ha' & _ & Hans).
  by simplify_eq.
Qed.

Lemma last_answer_is_an_option_witness :
  ∃ opts x, options answered_view = Some opts ∧
    user_last_answer answered_view = Some (Some x) ∧ x ∈ opts.
Proof.
  apply (last_answer_is_an_option five_poems answered_view true).
  - simpl. lia.
  - apply (bool_decide_unpack _). vm_compute. exact I.
  - apply reachable_run, reachable_run, reachable_fresh.
  - reflexivity.
Defined.

(** ** Reruns *)

Lemma no_rerun_bind {A B} (m : M A) (f : A → M B) :
  no_rerun m → (∀ a, no_rerun (f a)) → no_rerun (m ≫= f).
Proof.
  intros Hm Hf s t. unfold mbind, M_bind.
  specialize (Hm s t). destruct (m s t) as [a s' t'|e s' t']; [apply Hf|done].
Qed.

Lemma no_rerun_get_attr {A} (key : session_state → option A) :
  no_rerun (get_attr key).
Proof. intros s t. unfold get_attr. by destruct (key s). Qed.

Lemma no_rerun_getitem {A} (l : list A) i : no_rerun (getitem l i).
Proof. intros s t. unfold getitem. by destruct (_ ≫= _). Qed.

Lemma no_rerun_subscript {A} cur (key : poem → A) : no_rerun (subscript cur key).
Proof. intros s t. by destruct cur. Qed.

Lemma no_rerun_initialize_quiz file m : no_rerun (initialize_quiz file m).
Proof.
  intros s t. destruct file as [poems|]; [|done].
  by rewrite initialize_quiz_loaded.
Qed.

Lemma no_rerun_ensure_options poems q_id cur : no_rerun (ensure_options poems q_id cur).
Proof.
  intros s t. unfold ensure_options, generate_options.
  unfold mbind, M_bind, mret, M_ret, has_attr, when, subscript, draw, set_attr, raise.
  destruct (options s); simpl; [done|].
  destruct cur; simpl; [|done].
  destruct (Random.sample _ 3 t) as [[chosen t1]|]; simpl; [|done].
  by destruct (Random.shuffle _ t1).
Qed.

Lemma no_rerun_when_false b (m : M unit) :
  (b = true → no_rerun m) → no_rerun (when b m).
Proof. destruct b; intros Hm; [by apply Hm|done]. Qed.

(** A run that no button caused never asks for a rerun. *)
Lemma run_without_click file w s t :
  clicked w = None → raised (run file w s t) ≠ Some RerunException.
Proof.
  intros Hclick. revert s t. change (no_rerun (script file w)).
  assert (∀ b, st_button w b = false) as Hb.
  { intros b. unfold st_button. by rewrite Hclick. }
  unfold script, load_data. destruct file as [[|p ps]|]; [done| |done].
  unfold quiz_page.
  apply no_rerun_bind; [done|]. intros stored.
  apply no_rerun_bind.
  { apply no_rerun_when_false. intros _. apply no_rerun_initialize_quiz. }
  intros _.
  apply no_rerun_bind; [apply no_rerun_get_attr|]. intros q_index.
  apply no_rerun_bind; [apply no_rerun_get_attr|]. intros order.
  destruct (decide _).
  - apply no_rerun_bind; [apply no_rerun_getitem|]. intros q_id.
    apply no_rerun_bind; [apply no_rerun_ensure_options|]. intros _.
    apply no_rerun_bind; [apply no_rerun_subscript|]. intros _.
    apply no_rerun_bind; [apply no_rerun_get_attr|]. intros opts.
    apply no_rerun_bind; [apply no_rerun_get_attr|]. intros disabled.
    apply no_rerun_bind; [apply no_rerun_get_attr|]. intros [|].
    + apply no_rerun_bind; [apply no_rerun_get_attr|]. intros _.
      apply no_rerun_bind; [apply no_rerun_get_attr|]. intros _.
      apply no_rerun_when_false. by rewrite Hb.
    + apply no_rerun_when_false. by rewrite Hb.
  - apply no_rerun_bind; [apply no_rerun_get_attr|]. intros _.
    apply no_rerun_bind; [apply no_rerun_get_attr|]. intros _.
    apply no_rerun_when_false. by rewrite Hb.
Qed.

(** X6: one rerun is always enough.  Whatever the corpus file, the store,
    the widgets and the random numbers, the run that [st.rerun()] starts
    does not ask for another rerun, so a user interaction is over after at
    most two runs of the script. *)
Theorem interact_settles file w s t :
  raised (interact file w s t) ≠ Some RerunException.
Proof.
  unfold interact.
  destruct (run file w s t) as [[] s' t'|e s' t'] eqn:Hrun; [done|].
  destruct e; try done.
  by apply run_without_click.
Qed.

(** X7: showing the page changes nothing.  In a reachable store whose
    mode is the one in the sidebar, a run that no button caused returns
    with the store and the random tape as they were, provided the current
    question has its options or the quiz is over. *)
Theorem idle_run_changes_nothing poems w s t :
  (4 ≤ length poems)%nat → NoDup (id <$> poems) →
  reachable (Some poems) s →
  clicked w = None → mode s = Some (mode_selector w) →
  is_Some (options s) ∨
    (∃ order, question_list s = Some order ∧
              current_question_index s = Some (Z.of_nat (length order))) →
  run (Some poems) w s t = Returned () s t.
Proof.
  intros Hlen Hnd Hs Hclick Hm Hcase.
  assert (∀ b, st_button w b = false) as Hb.
  { intros b. unfold st_button. by rewrite Hclick. }
  destruct (reachable_coherent poems Hlen Hnd s Hs) as [->|Hc]; [done|].
  destruct Hc as (m & order & i & n & a & _ & _ & Hq & Hperm & _ & Hi & Hrange
                  & Hn & _ & Ha & Hopts & Hans).
  pose proof (poems_nonempty poems Hlen) as Hne.
  unfold run. destruct (options s) as [opts|] eqn:Ho.
  - simpl in Hopts.
    destruct Hopts as (Hlt & q_id & cur & wrong & rest & Hid & Hcur & Hca & _).
    rewrite (script_at_question poems w s t i order q_id cur a)
      by (done || lia || rewrite Ho; eauto).
    destruct a; simpl in Hans.
    + destruct Hans as (opts' & x & _ & Hu & _).
      unfold mbind, M_bind, get_attr. rewrite Hu, Hca. by rewrite Hb.
    + unfold mbind, M_bind, get_attr. rewrite Ho. by rewrite Hb.
  - destruct Hcase as [[? [=]]|(order' & Hq' & Hi')]. simplify_eq.
    rewrite (script_at_completion poems w s t _ order' n) by (done || lia).
    by rewrite Hb.
Qed.

Lemma idle_run_changes_nothing_witness :
  run (Some five_poems) (visitor 3 None) answered_view [5; 6]%nat
    = Returned () answered_view [5; 6]%nat.
Proof.
  apply (idle_run_changes_nothing five_poems (visitor 3 None) answered_view
           [5; 6]%nat).
  - simpl. lia.
  - apply (bool_decide_unpack _). vm_compute. exact I.
  - apply reachable_run, reachable_run, reachable_fresh.
  - reflexivity.
  - reflexivity.
  - left. vm_compute. eauto.
Defined.

(** X8: choosing the other mode restarts the quiz.  From any store whose
    mode is not the one in the sidebar, a run that no button caused
    returns with the new mode stored, index and score 0, the question
    unanswered and without a last answer, a fresh order of all ids, and
    four options for the first question of that order. *)
Theorem mode_switch_restarts poems w s t :
  (4 ≤ length poems)%nat → NoDup (id <$> poems) →
  clicked w = None → mode s ≠ Some (mode_selector w) →
  ∃ s' t' order opts,
    run (Some poems) w s t = Returned () s' t' ∧
    mode s' = Some (mode_selector w) ∧
    question_list s' = Some order ∧ order ≡ₚ id <$> poems ∧
    current_question_index s' = Some 0 ∧ score s' = Some 0 ∧
    is_answered s' = Some false ∧ user_last_answer s' = None ∧
    options s' = Some opts ∧ length opts = 4%nat ∧
    coherent poems s'.
Proof.
  intros Hlen Hnd Hclick Hm.
  assert (∀ b, st_button w b = false) as Hb.
  { intros b. unfold st_button. by rewrite Hclick. }
  pose proof (poems_nonempty poems Hlen) as Hne.
  pose proof (order_for_Permutation (mode_selector w) (id <$> poems) t) as Hperm.
  unfold run. rewrite script_after_initialize, initialize_quiz_loaded by done.
  assert (mode_selector w ≠ mode_random →
          (order_for (mode_selector w) (id <$> poems) t).1
            = merge_sort Z.le (id <$> poems)) as Hsort.
  { intros Hmr. unfold order_for. by rewrite decide_False. }
  destruct (order_for (mode_selector w) (id <$> poems) t) as [order t1].
  simpl in Hperm, Hsort |- *.
  assert (0 ≤ 0 < Z.of_nat (length order)) as Hrange.
  { apply Permutation_length in Hperm. rewrite length_fmap in Hperm. lia. }
  destruct (question_at poems Hlen order 0 Hperm Hrange) as (q_id & cur & Hid & Hcur).
  pose proof (other_lowers_length_ge poems q_id Hnd) as Hpool.
  set (s1 := SessionState _ _ _ _ _ _ _ _ _).
  destruct (generate_options_run poems q_id cur s1 t1 ltac:(lia))
    as (wrong & t2 & rest & opts & t3 & _ & Hw & Hsub & _ & Hp & Hrun).
  rewrite (script_after_generate poems w s1 t1 0 order q_id cur) by done.
  rewrite Hrun.
  rewrite (script_at_question poems w _ t3 0 order q_id cur false)
    by (done || simpl; eauto).
  unfold mbind, M_bind, get_attr. simpl. rewrite Hb. simpl.
  eexists _, t3, order, opts. split; [reflexivity|]. simpl.
  repeat split; try done.
  - by rewrite Hp, length_app, Hw.
  - exists (mode_selector w), order, 0, 0, false. simpl.
    repeat split; try done; try lia.
    by exists q_id, cur, wrong, rest.
Qed.

Lemma mode_switch_restarts_witness :
  ∃ s' t' order opts,
    run (Some five_poems) (Widgets mode_random 0 None) answered_view [4; 9]%nat
      = Returned () s' t' ∧
    mode s' = Some mode_random ∧
    question_list s' = Some order ∧ order ≡ₚ id <$> five_poems ∧
    current_question_index s' = Some 0 ∧ score s' = Some 0 ∧
    is_answered s' = Some false ∧ user_last_answer s' = None ∧
    options s' = Some opts ∧ length opts = 4%nat ∧
    coherent five_poems s'.
Proof.
  apply (mode_switch_restarts five_poems (Widgets mode_random 0 None)
           answered_view [4; 9]%nat).
  - simpl. lia.
  - apply (bool_decide_unpack _). vm_compute. exact I.
  - reflexivity.
  - discriminate.
Defined.

(** ** Interactions and rounds stay among the reachable stores *)

Lemma interact_reachable file w s t :
  reachable file s → reachable file (final_state (interact file w s t)).
Proof.
  intros Hs. unfold interact.
  pose proof (reachable_run file s w t Hs) as Hrun.
  destruct (run file w s t) as [[] s' t'|e s' t']; [done|].
  destruct e; try done. by apply reachable_run.
Qed.

Lemma play_reachable file m choices st :
  reachable file st.1 → reachable file (play file m choices st).1.
Proof.
  revert st. induction choices as [|c choices IH]; intros st Hs; [done|].
  simpl. apply IH. unfold answer_and_advance. simpl.
  by do 2 apply interact_reachable.
Qed.

Lemma finished_view_reachable : reachable (Some five_poems) finished_view.
Proof.
  apply play_reachable. simpl. apply reachable_run, reachable_fresh.
Qed.

(** X9: the retry button restarts in the same mode.  After the last
    question, a click on retry ends the run by [st.rerun()] with the mode
    kept, index and score back at 0, the question unanswered, no options
    and no last answer in the store, and a new order of all ids; in the
    sequential mode the order is the one before and no random number is
    drawn. *)
Theorem retry_restarts poems w s t order n :
  (4 ≤ length poems)%nat → NoDup (id <$> poems) →
  reachable (Some poems) s →
  mode s = Some (mode_selector w) →
  question_list s = Some order →
  current_question_index s = Some (Z.of_nat (length order)) →
  score s = Some n →
  clicked w = Some retry_button →
  ∃ s' t' order',
    run (Some poems) w s t = Raised RerunException s' t' ∧
    mode s' = mode s ∧
    question_list s' = Some order' ∧ order' ≡ₚ id <$> poems ∧
    current_question_index s' = Some 0 ∧ score s' = Some 0 ∧
    is_answered s' = Some false ∧
    options s' = None ∧ user_last_answer s' = None ∧
    (mode_selector w ≠ mode_random → order' = order ∧ t' = t).
Proof.
  intros Hlen Hnd Hs Hm Hq Hi Hn Hclick.
  pose proof (poems_nonempty poems Hlen) as Hne.
  destruct (reachable_coherent poems Hlen Hnd s Hs) as [->|Hc]; [done|].
  destruct Hc as (m & order0 & _ & _ & _ & Hm' & _ & Hq' & _ & Hsort & _).
  rewrite Hq in Hq'. injection Hq' as <-.
  rewrite Hm in Hm'. injection Hm' as <-.
  unfold run.
  rewrite (script_at_completion poems w s t _ order n) by (done || lia).
  unfold st_button. rewrite bool_decide_true by done.
  rewrite initialize_quiz_loaded.
  eexists _, _, _. split; [reflexivity|]. simpl.
  pose proof (order_for_Permutation (mode_selector w) (id <$> poems) t) as Hperm.
  repeat split; try done.
  - unfold order_for. rewrite decide_False by done. simpl. by rewrite Hsort.
  - unfold order_for. by rewrite decide_False.
Qed.

Lemma retry_restarts_witness :
  ∃ s' t' order',
    run (Some five_poems) (visitor 0 (Some retry_button)) finished_view [3]%nat
      = Raised RerunException s' t' ∧
    mode s' = mode finished_view ∧
    question_list s' = Some order' ∧ order' ≡ₚ id <$> five_poems ∧
    current_question_index s' = Some 0 ∧ score s' = Some 0 ∧
    is_answered s' = Some false ∧
    options s' = None ∧ user_last_answer s' = None ∧
    (mode_selector (visitor 0 (Some retry_button)) ≠ mode_random →
       order' = [1; 2; 3; 4; 5] ∧ t' = [3]%nat).
Proof.
  apply (retry_restarts five_poems (visitor 0 (Some retry_button)) finished_view
           [3]%nat [1; 2; 3; 4; 5] 2).
  - simpl. lia.
  - apply (bool_decide_unpack _). vm_compute. exact I.
  - apply finished_view_reachable.
  - reflexivity.
  - reflexivity.
  - reflexivity.
  - reflexivity.
  - reflexivity.
Defined.

(** ** Edge cases *)

(** X10: outside the random mode the order of the questions depends only
    on which ids the corpus has: two files listing the same poems in
    different orders give the same question list, and no random number is
    drawn. *)
Theorem sequential_order_ignores_file_order poems poems' m s s' t t' :
  poems ≡ₚ poems' → m ≠ mode_random →
  question_list (final_state (initialize_quiz (Some poems) m s t)) =
    question_list (final_state (initialize_quiz (Some poems') m s' t')) ∧
  final_tape (initialize_quiz (Some poems) m s t) = t.
Proof.
  intros Hperm Hm. rewrite !initialize_quiz_loaded. simpl.
  unfold order_for. rewrite !decide_False by done. simpl.
  split; [|done]. f_equal.
  apply (Sorted_unique Z.le).
  - apply Sorted_merge_sort; apply _.
  - apply Sorted_merge_sort; apply _.
  - rewrite !merge_sort_Permutation. by rewrite Hperm.
Qed.

Lemma sequential_order_ignores_file_order_witness :
  question_list (final_state (initialize_quiz (Some five_poems) mode_sequential
                                fresh [1]%nat)) =
    question_list (final_state (initialize_quiz (Some (reverse five_poems))
                                  mode_sequential answered_view [2]%nat)) ∧
  final_tape (initialize_quiz (Some five_poems) mode_sequential fresh [1]%nat)
    = [1]%nat.
Proof.
  apply (sequential_order_ignores_file_order five_poems (reverse five_poems)
           mode_sequential fresh answered_view [1]%nat [2]%nat).
  - apply (bool_decide_unpack _). vm_compute. exact I.
  - discriminate.
Defined.

(** X11: option generation fails in two cases only, and then it has
    changed neither the store nor the tape: with no current poem it
    raises [TypeError], with fewer than three other poems [ValueError];
    in every other case it returns with options in the store. *)
Theorem generate_options_outcome poems q_id cur s t :
  match generate_options poems q_id cur s t with
  | Raised e s' t' =>
      s' = s ∧ t' = t ∧
      ((cur = None ∧ e = TypeError) ∨
       (is_Some cur ∧ (length (other_lowers poems q_id) < 3)%nat ∧ e = ValueError))
  | Returned _ s' _ =>
      is_Some cur ∧ (3 ≤ length (other_lowers poems q_id))%nat ∧
      is_Some (options s') ∧ correct_answer s' = lower <$> cur
  end.
Proof.
  destruct cur as [cur|]; [|by repeat split; left].
  destruct (decide (3 ≤ length (other_lowers poems q_id))%nat) as [Hpool|Hpool].
  - destruct (generate_options_run poems q_id cur s t Hpool)
      as (wrong & t1 & rest & opts & t2 & _ & _ & _ & _ & _ & ->).
    simpl. eauto.
  - rewrite generate_options_short by lia.
    repeat split. right. split; [eauto|]. split; [lia|done].
Qed.

(** X12: without a usable corpus nothing is ever stored.  When the file
    is missing or holds an empty list, every run returns normally with the
    store and the tape untouched, so the store of a session stays the
    empty one. *)
Theorem no_corpus_no_state file w s t :
  file = None ∨ file = Some [] →
  run file w s t = Returned () s t ∧
  (reachable file s → s = fresh).
Proof.
  intros Hfile.
  assert (∀ w s t, run file w s t = Returned () s t) as Hrun.
  { by destruct Hfile as [-> | ->]. }
  split; [apply Hrun|].
  induction 1 as [|s0 w0 t0 Hs IH]; [done|].
  by rewrite Hrun.
Qed.

Lemma no_corpus_no_state_witness :
  run (Some []) (visitor 0 (Some submit_button)) answered_view [1]%nat
    = Returned () answered_view [1]%nat ∧
  (reachable (Some []) answered_view → answered_view = fresh).
Proof.
  apply (no_corpus_no_state (Some []) (visitor 0 (Some submit_button))
           answered_view [1]%nat).
  right. reflexivity.
Defined.

(** ** Question rounds *)

Section rounds.
Context (poems : list poem).
Hypothesis enough : (4 ≤ length poems)%nat.
Hypothesis distinct_ids : NoDup (id <$> poems).

(** A run that no button caused, with the sidebar on the stored mode:
    at most the options of the current question are added. *)
Lemma run_settles w s t :
  coherent poems s → mode s = Some (mode_selector w) → clicked w = None →
  ∃ s' t',
    run (Some poems) w s t = Returned () s' t' ∧ coherent poems s' ∧
    mode s' = mode s ∧ question_list s' = question_list s ∧
    current_question_index s' = current_question_index s ∧
    score s' = score s ∧ is_answered s' = is_answered s ∧
    user_last_answer s' = user_last_answer s ∧
    (is_Some (options s) → s' = s ∧ t' = t) ∧
    (∀ i order, current_question_index s = Some i → question_list s = Some order →
       i < Z.of_nat (length order) → is_Some (options s')).
Proof.
  intros Hs Hm Hclick.
  assert (∀ b, st_button w b = false) as Hb.
  { intros b. unfold st_button. by rewrite Hclick. }
  pose proof (poems_nonempty poems enough) as Hne.
  assert (∀ s0 t0, coherent poems s0 → mode s0 = Some (mode_selector w) →
            is_Some (options s0) → run (Some poems) w s0 t0 = Returned () s0 t0)
    as Hready.
  { intros s0 t0 Hc Hm0 [opts Ho].
    destruct Hc as (m & order & i & n & a & _ & _ & Hq & Hperm & _ & Hi & Hrange
                    & Hn & _ & Ha & Hopts & Hans).
    rewrite Ho in Hopts, Hans. simpl in Hopts.
    destruct Hopts as (Hlt & q_id & cur & wrong & rest & Hid & Hcur & Hca & _).
    unfold run.
    rewrite (script_at_question poems w s0 t0 i order q_id cur a)
      by (done || lia || rewrite Ho; eauto).
    destruct a; simpl in Hans.
    - destruct Hans as (opts' & x & _ & Hu & _).
      unfold mbind, M_bind, get_attr. rewrite Hu, Hca. by rewrite Hb.
    - unfold mbind, M_bind, get_attr. rewrite Ho. by rewrite Hb. }
  destruct (options s) as [opts|] eqn:Ho.
  { exists s, t. rewrite Hready by (done || rewrite Ho; eauto).
    repeat split; try done; intros; rewrite ?Ho; eauto. }
  pose proof Hs as (m & order & i & n & a & Hm' & Hap & Hq & Hperm & Hsort & Hi
                    & Hrange & Hn & Hbound & Ha & Hopts & Hans).
  rewrite Ho in Hans.
  destruct a; simpl in Hans; [by destruct Hans as (? & ? & ? & _)|].
  destruct (decide (i < Z.of_nat (length order))) as [Hlt|Hge].
  - destruct (question_at poems enough order i Hperm ltac:(lia))
      as (q_id & cur & Hid & Hcur).
    pose proof (other_lowers_length_ge poems q_id distinct_ids) as Hpool.
    destruct (generate_options_run poems q_id cur s t ltac:(lia))
      as (wrong & t1 & rest & opts & t2 & _ & Hw & Hsub & _ & Hp & Hrun).
    unfold run.
    rewrite (script_after_generate poems w s t i order q_id cur)
      by (done || lia).
    rewrite Hrun.
    set (s2 := set_correct_answer _ _).
    assert (coherent poems s2) as Hs2.
    { exists m, order, i, n, false. simpl.
      repeat split; try done; try lia.
      by exists q_id, cur, wrong, rest. }
    fold (run (Some poems) w s2 t2).
    rewrite Hready by (done || simpl; eauto).
    exists s2, t2. repeat split; try done; try by intros [? [=]].
    all: try (intros; simpl; eauto).
  - unfold run.
    rewrite (script_at_completion poems w s t i order n) by done.
    rewrite Hb. exists s, t. repeat split; try done; try by intros [? [=]].
    all: try (intros i' order' ? ? ?; simplify_eq; lia).
Qed.

(** The click on submit at a question whose options are shown. *)
Lemma interact_submit m choice s t i opts c n :
  coherent poems s → mode s = Some m →
  current_question_index s = Some i → is_answered s = Some false →
  options s = Some opts → correct_answer s = Some c → score s = Some n →
  let w := Widgets m choice (Some submit_button) in
  interact (Some poems) w s t = Returned () (submitted (st_radio w opts) c n s) t ∧
  coherent poems (submitted (st_radio w opts) c n s).
Proof.
  intros Hs Hm Hi Ha Ho Hca Hn w.
  pose proof (poems_nonempty poems enough) as Hne.
  assert (run (Some poems) w s t
          = Raised RerunException (submitted (st_radio w opts) c n s) t) as Hrun.
  { pose proof Hs as (m' & order & i' & n' & a & _ & _ & Hq & Hperm & _ & Hi'
                      & Hrange & _ & _ & _ & Hopts & _).
    rewrite Ho in Hopts.
    destruct Hopts as (Hlt & q_id & cur & wrong & rest & Hid & Hcur & _).
    simplify_eq. unfold run.
    rewrite (script_at_question poems w s t i order q_id cur false)
      by (done || lia || rewrite Ho; eauto).
    unfold mbind, M_bind, get_attr. rewrite Ho. simpl.
    by apply submit_answer_run. }
  pose proof (run_coherent poems enough distinct_ids w s t (or_intror Hs)) as [Hc _].
  rewrite Hrun in Hc. simpl in Hc. split; [|done].
  unfold interact. rewrite Hrun.
  destruct (run_settles (settled w) _ t Hc) as (s' & t' & Hrun' & _ & _ & _ & _ & _ & _ & _ & Hsame & _);
    [by simpl|done|].
  rewrite Hrun'. destruct Hsame as [-> ->]; [simpl; rewrite Ho; eauto|done].
Qed.

(** The click on the next-question button at an answered question. *)
Lemma interact_next m choice s t i :
  coherent poems s → mode s = Some m →
  current_question_index s = Some i → is_answered s = Some true →
  let w := Widgets m choice (Some next_button) in
  ∃ s' t',
    interact (Some poems) w s t = Returned () s' t' ∧ coherent poems s' ∧
    mode s' = Some m ∧ question_list s' = question_list s ∧
    current_question_index s' = Some (i + 1) ∧ score s' = score s ∧
    is_answered s' = Some false ∧ user_last_answer s' = None ∧
    (∀ order, question_list s = Some order →
       i + 1 < Z.of_nat (length order) → is_Some (options s')).
Proof.
  intros Hs Hm Hi Ha w.
  pose proof (poems_nonempty poems enough) as Hne.
  assert (run (Some poems) w s t = Raised RerunException (advanced i s) t) as Hrun.
  { pose proof Hs as (m' & order & i' & n' & a & _ & _ & Hq & Hperm & _ & Hi'
                      & Hrange & _ & _ & Ha' & Hopts & Hans).
    simplify_eq. simpl in Hans. destruct Hans as (opts & x & Ho & Hu & _).
    rewrite Ho in Hopts.
    destruct Hopts as (Hlt & q_id & cur & wrong & rest & Hid & Hcur & Hca & _).
    unfold run.
    rewrite (script_at_question poems w s t i order q_id cur true)
      by (done || lia || rewrite Ho; eauto).
    unfold mbind, M_bind, get_attr. rewrite Hu, Hca. simpl.
    apply advance_run; [done|rewrite Ho; eauto|rewrite Hu; eauto]. }
  pose proof (run_coherent poems enough distinct_ids w s t (or_intror Hs)) as [Hc _].
  rewrite Hrun in Hc. simpl in Hc.
  unfold interact. rewrite Hrun.
  destruct (run_settles (settled w) _ t Hc)
    as (s' & t' & Hrun' & Hc' & Hm' & Hq' & Hi' & Hn' & Ha' & Hu' & _ & Hgen);
    [by simpl|done|].
  rewrite Hrun'. exists s', t'. simpl in *.
  repeat split; try done; try congruence.
  intros order Hq Hlt. eapply Hgen; [done..|lia].
Qed.

(** One round from a question whose options are shown. *)
Lemma round_effect m choice s t i opts c n :
  coherent poems s → mode s = Some m →
  current_question_index s = Some i → is_answered s = Some false →
  options s = Some opts → correct_answer s = Some c → score s = Some n →
  let s' := (answer_and_advance (Some poems) m choice (s, t)).1 in
  coherent poems s' ∧ mode s' = Some m ∧ question_list s' = question_list s ∧
  current_question_index s' = Some (i + 1) ∧
  score s' = Some (if bool_decide
                        (st_radio (Widgets m choice (Some submit_button)) opts = Some c)
                   then n + 1 else n) ∧
  is_answered s' = Some false ∧ user_last_answer s' = None ∧
  (∀ order, question_list s = Some order →
     i + 1 < Z.of_nat (length order) → is_Some (options s')).
Proof.
  intros Hs Hm Hi Ha Ho Hca Hn.
  destruct (interact_submit m choice s t i opts c n) as [Hsub Hc]; [done..|].
  unfold answer_and_advance. simpl. rewrite Hsub. simpl.
  destruct (interact_next m choice _ t i Hc) as
    (s' & t' & Hnext & Hc' & Hm' & Hq' & Hi' & Hn' & Ha' & Hu' & Hgen); [done..|].
  rewrite Hnext. simpl. simpl in Hq', Hn'.
  repeat split; try done.
Qed.

(** Round after round. *)
Lemma play_effect m order choices : ∀ s t i n,
  coherent poems s → mode s = Some m →
  question_list s = Some order →
  current_question_index s = Some i → is_answered s = Some false →
  (i < Z.of_nat (length order) → is_Some (options s)) →
  score s = Some n →
  i + Z.of_nat (length choices) ≤ Z.of_nat (length order) →
  let s' := (play (Some poems) m choices (s, t)).1 in
  coherent poems s' ∧ mode s' = Some m ∧ question_list s' = Some order ∧
  current_question_index s' = Some (i + Z.of_nat (length choices)) ∧
  is_answered s' = Some false ∧
  ∃ n', score s' = Some n' ∧ n ≤ n' ≤ n + Z.of_nat (length choices).
Proof.
  induction choices as [|choice choices IH]; intros s t i n Hs Hm Hq Hi Ha Ho Hn Hlen.
  { simpl. repeat split; try done.
    - rewrite Hi. f_equal. lia.
    - exists n. split; [done|lia]. }
  simpl length in *.
  destruct Ho as [opts Ho]; [lia|].
  assert (∃ c, correct_answer s = Some c) as [c Hca].
  { destruct Hs as (? & order' & i' & ? & ? & _ & _ & _ & _ & _ & _ & _ & _ & _ & _
                    & Hopts & _).
    rewrite Ho in Hopts.
    destruct Hopts as (_ & ? & cur & ? & ? & _ & _ & Hca & _). eauto. }
  pose proof (round_effect m choice s t i opts c n Hs Hm Hi Ha Ho Hca Hn)
    as (Hs1 & Hm1 & Hq1 & Hi1 & Hn1 & Ha1 & _ & Ho1).
  simpl play.
  destruct (answer_and_advance (Some poems) m choice (s, t)) as [s1 t1].
  simpl in *. rewrite Hq in Hq1.
  destruct (IH s1 t1 (i + 1) _ Hs1 Hm1 Hq1 Hi1 Ha1 (Ho1 order Hq) Hn1 ltac:(lia))
    as (Hs' & Hm' & Hq' & Hi' & Ha' & n' & Hn' & Hbound).
  repeat split; try done.
  - rewrite Hi'. f_equal. lia.
  - exists n'. split; [done|]. case_bool_decide; lia.
Qed.

End rounds.

(** X13: one question round.  From a reachable store that shows an
    unanswered question with its options, submitting the selected option
    and then clicking next leads to the next index with the question
    unanswered and no last answer; the score has grown by exactly 1 if the
    selected option equals the correct answer and not at all otherwise;
    mode and question order are as before, and unless the quiz is over the
    options of the next question are in the store. *)
Theorem question_round poems m choice s t i opts c n :
  (4 ≤ length poems)%nat → NoDup (id <$> poems) →
  reachable (Some poems) s →
  mode s = Some m →
  current_question_index s = Some i → is_answered s = Some false →
  options s = Some opts → correct_answer s = Some c → score s = Some n →
  let s' := (answer_and_advance (Some poems) m choice (s, t)).1 in
  mode s' = Some m ∧ question_list s' = question_list s ∧
  current_question_index s' = Some (i + 1) ∧
  score s' = Some (if bool_decide
                        (st_radio (Widgets m choice (Some submit_button)) opts = Some c)
                   then n + 1 else n) ∧
  is_answered s' = Some false ∧ user_last_answer s' = None ∧
  (∀ order, question_list s = Some order →
     i + 1 < Z.of_nat (length order) → is_Some (options s')).
Proof.
  intros Hlen Hnd Hs Hm Hi Ha Ho Hca Hn.
  destruct (reachable_coherent poems Hlen Hnd s Hs) as [->|Hc]; [done|].
  by destruct (round_effect poems Hlen Hnd m choice s t i opts c n) as (_ & H).
Qed.

Lemma question_round_witness :
  let s' := (answer_and_advance (Some five_poems) mode_sequential 2
               (first_view, [])).1 in
  mode s' = Some mode_sequential ∧ question_list s' = question_list first_view ∧
  current_question_index s' = Some (0 + 1) ∧
  score s' = Some (if bool_decide
                        (st_radio (Widgets mode_sequential 2 (Some submit_button))
                           ["d"; "e"; "a"; "c"] = Some "a")
                   then 0 + 1 else 0) ∧
  is_answered s' = Some false ∧ user_last_answer s' = None ∧
  (∀ order, question_list first_view = Some order →
     0 + 1 < Z.of_nat (length order) → is_Some (options s')).
Proof.
  apply (question_round five_poems mode_sequential 2 first_view [] 0
           ["d"; "e"; "a"; "c"] "a" 0).
  - simpl. lia.
  - apply (bool_decide_unpack _). vm_compute. exact I.
  - apply reachable_run, reachable_fresh.
  - reflexivity.
  - reflexivity.
  - reflexivity.
  - reflexivity.
  - reflexivity.
  - reflexivity.
Defined.

(** X14: playing on.  From a reachable store that shows an unanswered
    question with its options, any number of rounds that fits into the
    rest of the order moves the index on by that number, leaves the
    question unanswered, and raises the score by at most one per round;
    with as many rounds as questions are left the index reaches the
    length of the order, so the quiz is over. *)
Theorem play_advances poems m choices s t i order n :
  (4 ≤ length poems)%nat → NoDup (id <$> poems) →
  reachable (Some poems) s →
  mode s = Some m → question_list s = Some order →
  current_question_index s = Some i → is_answered s = Some false →
  (i < Z.of_nat (length order) → is_Some (options s)) →
  score s = Some n →
  i + Z.of_nat (length choices) ≤ Z.of_nat (length order) →
  let s' := (play (Some poems) m choices (s, t)).1 in
  mode s' = Some m ∧ question_list s' = Some order ∧
  current_question_index s' = Some (i + Z.of_nat (length choices)) ∧
  is_answered s' = Some false ∧
  ∃ n', score s' = Some n' ∧ n ≤ n' ≤ n + Z.of_nat (length choices).
Proof.
  intros Hlen Hnd Hs Hm Hq Hi Ha Ho Hn Hfit.
  destruct (reachable_coherent poems Hlen Hnd s Hs) as [->|Hc]; [done|].
  by destruct (play_effect poems Hlen Hnd m order choices s t i n) as (_ & H).
Qed.

Lemma play_advances_witness :
  let s' := (play (Some five_poems) mode_sequential [2; 0; 1; 3; 2]%nat
               (first_view, [])).1 in
  mode s' = Some mode_sequential ∧ question_list s' = Some [1; 2; 3; 4; 5] ∧
  current_question_index s'
    = Some (0 + Z.of_nat (length [2; 0; 1; 3; 2]%nat)) ∧
  is_answered s' = Some false ∧
  ∃ n', score s' = Some n' ∧ 0 ≤ n' ≤ 0 + Z.of_nat (length [2; 0; 1; 3; 2]%nat).
Proof.
  apply (play_advances five_poems mode_sequential [2; 0; 1; 3; 2]%nat first_view []
           0 [1; 2; 3; 4; 5] 0).
  - simpl. lia.
  - apply (bool_decide_unpack _). vm_compute. exact I.
  - apply reachable_run, reachable_fresh.
  - reflexivity.
  - reflexivity.
  - reflexivity.
  - reflexivity.
  - intros _. vm_compute. eauto.
  - reflexivity.
  - simpl. lia.
Defined.

(** X15: the message agrees with the score.  After a click on submit at a
    question whose options are shown, the test behind the success message
    holds exactly when the click has added the point: the score is one
    higher if the message is the success message and unchanged if it is
    the error message. *)
Theorem verdict_matches_score poems m choice s t i opts c n :
  (4 ≤ length poems)%nat → NoDup (id <$> poems) →
  reachable (Some poems) s →
  mode s = Some m →
  current_question_index s = Some i → is_answered s = Some false →
  options s = Some opts → correct_answer s = Some c → score s = Some n →
  let o := interact (Some poems) (Widgets m choice (Some submit_button)) s t in
  ∃ b, verdict (final_state o) (final_tape o)
         = Returned b (final_state o) (final_tape o) ∧
       is_answered (final_state o) = Some true ∧
       score (final_state o) = Some (if b then n + 1 else n).
Proof.
  intros Hlen Hnd Hs Hm Hi Ha Ho Hca Hn.
  destruct (reachable_coherent poems Hlen Hnd s Hs) as [->|Hc]; [done|].
  destruct (interact_submit poems Hlen Hnd m choice s t i opts c n) as [Hsub _];
    [done..|].
  simpl. rewrite Hsub. simpl.
  exists (bool_decide (st_radio (Widgets m choice (Some submit_button)) opts = Some c)).
  unfold verdict, mbind, M_bind, get_attr, submitted. simpl. rewrite Hca. simpl.
  repeat split.
Qed.

Lemma verdict_matches_score_witness :
  let o := interact (Some five_poems) (Widgets mode_sequential 1 (Some submit_button))
             first_view [] in
  ∃ b, verdict (final_state o) (final_tape o)
         = Returned b (final_state o) (final_tape o) ∧
       is_answered (final_state o) = Some true ∧
       score (final_state o) = Some (if b then 0 + 1 else 0).
Proof.
  apply (verdict_matches_score five_poems mode_sequential 1 first_view [] 0
           ["d"; "e"; "a"; "c"] "a" 0).
  - simpl. lia.
  - apply (bool_decide_unpack _). vm_compute. exact I.
  - apply reachable_run, reachable_fresh.
  - reflexivity.
  - reflexivity.
  - reflexivity.
  - reflexivity.
  - reflexivity.
  - reflexivity.
Defined.

(** ** The description of an answered poem *)

Lemma append_String a s1 s2 :
  String.append (String a s1) s2 = String a (String.append s1 s2).
Proof. reflexivity. Qed.

Lemma append_empty s : String.append EmptyString s = s.
Proof. reflexivity. Qed.

Lemma starts_with_spec old s :
  starts_with old s = true ↔ ∃ rest, s = String.append old rest.
Proof.
  revert s. induction old as [|a old IH]; intros s; simpl.
  - split; [intros _; by exists s|done].
  - destruct s as [|b s].
    { split; [done|]. intros [rest Hrest]. by rewrite append_String in Hrest. }
    destruct (decide (a = b)) as [->|Hne].
    + rewrite IH. split; intros [rest Hrest]; exists rest.
      * by rewrite append_String, Hrest.
      * rewrite append_String in Hrest. congruence.
    + split; [done|]. intros [rest Hrest].
      rewrite append_String in Hrest. congruence.
Qed.

Lemma without_line_feeds_app s1 s2 :
  without_line_feeds (String.append s1 s2)
    = String.append (without_line_feeds s1) (without_line_feeds s2).
Proof.
  induction s1 as [|ch s1 IH]; [done|].
  rewrite append_String. simpl.
  destruct (decide (ch = LF)); [done|]. by rewrite append_String, IH.
Qed.

Lemma string_drop_app old rest :
  string_drop (String.length old) (String.append old rest) = rest.
Proof.
  induction old as [|a old IH]; [done|].
  rewrite append_String. simpl. done.
Qed.

(** Replacing [old] by two line feeds and [old] changes nothing but line
    feeds. *)
Lemma without_line_feeds_replace_from old s : ∀ k,
  old ≠ EmptyString →
  without_line_feeds (replace_from k old (String LF (String LF old)) s)
    = without_line_feeds (string_drop k s).
Proof.
  induction s as [|ch rest IH]; intros k Hold; [by destruct k|].
  destruct k as [|k]; simpl; [|by apply IH].
  destruct (starts_with old (String ch rest)) eqn:Hstart.
  - apply starts_with_spec in Hstart as [tail Htail].
    rewrite without_line_feeds_app, IH by done. simpl.
    destruct old as [|a old]; [done|].
    rewrite append_String in Htail. injection Htail as -> ->. simpl.
    rewrite string_drop_app, without_line_feeds_app.
    destruct (decide (a = LF)); [done|].
    by rewrite append_String.
  - simpl. rewrite (IH 0%nat) by done. simpl. by destruct (decide (ch = LF)).
Qed.

Lemma without_line_feeds_break_before marker desc_text :
  marker ≠ EmptyString →
  without_line_feeds (break_before marker desc_text) = without_line_feeds desc_text.
Proof.
  intros Hne. unfold break_before, str_replace.
  destruct marker; [done|].
  by rewrite without_line_feeds_replace_from.
Qed.

(** X16: breaking a description into sections only adds line feeds: apart
    from line feeds the text after the three replacements is, character
    for character, the text before them. *)
Theorem break_sections_only_adds_line_feeds desc_text :
  without_line_feeds (break_sections desc_text) = without_line_feeds desc_text.
Proof.
  unfold break_sections.
  by rewrite !without_line_feeds_break_before.
Qed.

Lemma occurs_String old ch rest : occurs old rest → occurs old (String ch rest).
Proof.
  intros (before & after & ->). by exists (String ch before), after.
Qed.

Lemma replace_from_absent old new s :
  ¬ occurs old s → replace_from 0 old new s = s.
Proof.
  induction s as [|ch rest IH]; intros Habsent; [done|]. simpl.
  destruct (starts_with old (String ch rest)) eqn:Hstart.
  - apply starts_with_spec in Hstart as [tail Htail].
    destruct Habsent. by exists EmptyString, tail.
  - rewrite IH; [done|]. intros Hocc. by apply Habsent, occurs_String.
Qed.

Lemma break_before_absent marker desc_text :
  marker ≠ EmptyString → ¬ occurs marker desc_text →
  break_before marker desc_text = desc_text.
Proof.
  intros Hne Habsent. unfold break_before, str_replace.
  destruct marker; [done|]. by apply replace_from_absent.
Qed.

(** X17: a description in which none of the three markers occurs goes
    through the three replacements unchanged. *)
Theorem break_sections_without_markers desc_text :
  ¬ occurs marker_source desc_text →
  ¬ occurs marker_background desc_text →
  ¬ occurs marker_points desc_text →
  break_sections desc_text = desc_text.
Proof.
  intros H1 H2 H3. unfold break_sections.
  rewrite (break_before_absent marker_source), (break_before_absent marker_background),
    (break_before_absent marker_points); done.
Qed.

Lemma occurs_contains old s : occurs old s → contains old s = true.
Proof.
  intros (before & after & ->).
  induction before as [|ch before IH].
  - rewrite append_empty.
    assert (starts_with old (String.append old after) = true) as Hstart.
    { apply starts_with_spec. by exists after. }
    destruct (String.append old after); simpl in *; by rewrite Hstart.
  - rewrite append_String. simpl. rewrite IH. apply orb_true_r.
Qed.

Lemma break_sections_without_markers_witness :
  break_sections "むらさめの つゆもまだひぬ" = "むらさめの つゆもまだひぬ".
Proof.
  apply (break_sections_without_markers "むらさめの つゆもまだひぬ");
    intros Hocc; apply occurs_contains in Hocc; vm_compute in Hocc; discriminate.
Defined.
